(** * dlaf: diffusion-limited aggregation, geometry, walk and round protocol

    A shallow embedding of [dlaf.cpp].

    Numbers.  The file has two models of a C++ [double].

    The type [double] below keeps the IEEE-754 special values (the two
    infinities and NaN), with the IEEE rules for arithmetic and
    comparison on them, and takes a finite value to be a real number on
    which arithmetic is exact.  It carries what does not depend on the
    digits of a computed value: the comparisons of the commit phase, the
    propagation of NaN, the bounding radius never shrinking, the counting
    of the batch, and the structure of the index and of the output.

    The module [B64] embeds the vector type, [Lerp], the draws and the
    [Model] class up to [Walk] once more on binary64, where every
    operation rounds, underflows and overflows as in the source.  Every
    statement about a value the program computes (a position, a
    distance, a written coordinate) is made there.

    Integers are [Z], with the conversions of the source written out. *)

From Stdlib Require Import Reals Lra Psatz ZArith List Bool Lia.
From Stdlib Require Floats.
Import ListNotations.

Local Open Scope R_scope.

(** ** The model of [double] *)

Inductive double : Type :=
| Fin (r : R)
| PInf
| NInf
| NaN.

Definition Rltb (a b : R) : bool := if Rlt_dec a b then true else false.
Definition Rleb (a b : R) : bool := if Rle_dec a b then true else false.
Definition Reqb (a b : R) : bool := if Req_dec_T a b then true else false.

(** The infinity whose sign is the sign of [a]; NaN for zero. *)
Definition signed_inf (a : R) : double :=
  if Reqb a 0 then NaN else if Rltb 0 a then PInf else NInf.

Definition dneg (a : double) : double :=
  match a with
  | Fin r => Fin (- r)
  | PInf => NInf
  | NInf => PInf
  | NaN => NaN
  end.

Definition dadd (a b : double) : double :=
  match a, b with
  | NaN, _ | _, NaN => NaN
  | Fin x, Fin y => Fin (x + y)
  | PInf, NInf | NInf, PInf => NaN
  | PInf, _ | _, PInf => PInf
  | NInf, _ | _, NInf => NInf
  end.

Definition dsub (a b : double) : double := dadd a (dneg b).

Definition dmul (a b : double) : double :=
  match a, b with
  | NaN, _ | _, NaN => NaN
  | Fin x, Fin y => Fin (x * y)
  | Fin x, PInf | PInf, Fin x => signed_inf x
  | Fin x, NInf | NInf, Fin x => signed_inf (- x)
  | PInf, PInf | NInf, NInf => PInf
  | PInf, NInf | NInf, PInf => NaN
  end.

(** Division.  A finite zero divisor stands for +0. *)
Definition ddiv (a b : double) : double :=
  match a, b with
  | NaN, _ | _, NaN => NaN
  | Fin x, Fin y => if Reqb y 0 then signed_inf x else Fin (x / y)
  | Fin _, PInf | Fin _, NInf => Fin 0
  | PInf, Fin y => if Rltb y 0 then NInf else PInf
  | NInf, Fin y => if Rltb y 0 then PInf else NInf
  | PInf, PInf | PInf, NInf | NInf, PInf | NInf, NInf => NaN
  end.

(** [std::sqrt] *)
Definition dsqrt (a : double) : double :=
  match a with
  | Fin x => if Rltb x 0 then NaN else Fin (sqrt x)
  | PInf => PInf
  | NInf => NaN
  | NaN => NaN
  end.

(** [a < b]; false as soon as one side is NaN. *)
Definition dlt (a b : double) : bool :=
  match a, b with
  | NaN, _ | _, NaN => false
  | Fin x, Fin y => Rltb x y
  | Fin _, PInf | NInf, Fin _ | NInf, PInf => true
  | Fin _, NInf | PInf, _ | NInf, NInf => false
  end.

(** [a <= b] *)
Definition dle (a b : double) : bool :=
  match a, b with
  | NaN, _ | _, NaN => false
  | Fin x, Fin y => Rleb x y
  | Fin _, PInf | NInf, _ | PInf, PInf => true
  | Fin _, NInf | PInf, Fin _ | PInf, NInf => false
  end.

(** [a > b] and [a >= b] are the comparisons with the sides exchanged. *)
Definition dgt (a b : double) : bool := dlt b a.
Definition dge (a b : double) : bool := dle b a.

(** [std::max(a, b)] is [(a < b) ? b : a]. *)
Definition dmax (a b : double) : double := if dlt a b then b else a.

(** [std::pow(a, 2)] *)
Definition dpow2 (a : double) : double := dmul a a.

Definition is_finite (a : double) : Prop :=
  match a with Fin _ => True | _ => False end.

(** ** Integer conversions *)

(** [static_cast<uint32_t>] of an [int]. *)
Definition to_uint32 (z : Z) : Z := (z mod 2 ^ 32)%Z.

(** Conversion of a [size_t] to [int] (two's complement, 32 bits). *)
Definition to_int (z : Z) : Z := ((z + 2 ^ 31) mod 2 ^ 32 - 2 ^ 31)%Z.

(** Conversion of an [int] to [size_t] (64 bits), as the usual arithmetic
    conversions do when an [int] is compared with a [size_t]. *)
Definition to_size_t (z : Z) : Z := (z mod 2 ^ 64)%Z.

(** ** Vector *)

Record Vector : Type := mkVector { m_X : double; m_Y : double; m_Z : double }.

(** [Vector()] *)
Definition Vector0 : Vector := mkVector (Fin 0) (Fin 0) (Fin 0).

(** Modelled from the spec: the boost point type is not part of the
    sources.  It holds the [D = 3] coordinates, which are zero when the
    point is value-initialised. *)
Definition BoostPoint : Type := (double * double * double)%type.

(** [Vector(BoostPoint p)] *)
Definition VectorOfBoost (p : BoostPoint) : Vector :=
  let '(x, y, z) := p in mkVector x y z.

Definition ToBoost (v : Vector) : BoostPoint := (m_X v, m_Y v, m_Z v).

Definition Length (v : Vector) : double :=
  dsqrt (dadd (dadd (dmul (m_X v) (m_X v)) (dmul (m_Y v) (m_Y v)))
              (dmul (m_Z v) (m_Z v))).

Definition LengthSquared (v : Vector) : double :=
  dadd (dadd (dmul (m_X v) (m_X v)) (dmul (m_Y v) (m_Y v)))
       (dmul (m_Z v) (m_Z v)).

Definition Distance (u v : Vector) : double :=
  let dx := dsub (m_X u) (m_X v) in
  let dy := dsub (m_Y u) (m_Y v) in
  let dz := dsub (m_Z u) (m_Z v) in
  dsqrt (dadd (dadd (dmul dx dx) (dmul dy dy)) (dmul dz dz)).

Definition DistanceSquared (u v : Vector) : double :=
  let dx := dsub (m_X u) (m_X v) in
  let dy := dsub (m_Y u) (m_Y v) in
  let dz := dsub (m_Z u) (m_Z v) in
  dadd (dadd (dmul dx dx) (dmul dy dy)) (dmul dz dz).

Definition Normalized (v : Vector) : Vector :=
  let m := ddiv (Fin 1) (Length v) in
  mkVector (dmul (m_X v) m) (dmul (m_Y v) m) (dmul (m_Z v) m).

(** [operator+], [operator-], [operator*] *)
Definition vadd (u v : Vector) : Vector :=
  mkVector (dadd (m_X u) (m_X v)) (dadd (m_Y u) (m_Y v)) (dadd (m_Z u) (m_Z v)).

Definition vsub (u v : Vector) : Vector :=
  mkVector (dsub (m_X u) (m_X v)) (dsub (m_Y u) (m_Y v)) (dsub (m_Z u) (m_Z v)).

Definition vscale (v : Vector) (a : double) : Vector :=
  mkVector (dmul (m_X v) a) (dmul (m_Y v) a) (dmul (m_Z v) a).

(** [Lerp] linearly interpolates from [a] to [b] by distance [d]. *)
Definition Lerp (a b : Vector) (d : double) : Vector :=
  vadd a (vscale (Normalized (vsub b a)) d).

(** ** Records, index and model state *)

(** The output record [Record]: [ParentID] is a [uint32_t], the
    coordinates are [float]s. *)
Record Record_ : Type := mkRecord {
  ParentID : Z;
  X : double;
  Y : double;
  Z_ : double
}.

(** [static_cast<float>]: the identity here, which is what the narrowing
    does to a value that is a binary32 number already, as the
    coordinates read from a seed record are.  The rounding of any other
    value is [B64.static_cast_float]. *)
Definition static_cast_float (x : double) : double := x.

Definition IndexValue : Type := (BoostPoint * Z)%type.

(** Modelled from the spec: the boost R-tree [Index] is not part of the
    sources.  It is the list of the inserted values, in insertion order;
    [insert] appends, [size] is the length, and the query for the single
    nearest value yields the value at the least squared distance from the
    query point (the first such one), and nothing when the index is empty. *)
Definition Index : Type := list IndexValue.

Definition index_size (idx : Index) : Z := Z.of_nat (length idx).

Definition index_insert (idx : Index) (v : IndexValue) : Index := idx ++ [v].

Definition comparable_distance (q p : BoostPoint) : double :=
  DistanceSquared (VectorOfBoost q) (VectorOfBoost p).

Fixpoint nearest_scan (q : BoostPoint) (best : IndexValue) (rest : Index)
  : IndexValue :=
  match rest with
  | [] => best
  | v :: rest' =>
      nearest_scan q
        (if dlt (comparable_distance q (fst v)) (comparable_distance q (fst best))
         then v else best)
        rest'
  end.

Definition index_query_nearest1 (idx : Index) (q : BoostPoint)
  : list IndexValue :=
  match idx with
  | [] => []
  | v :: rest => [nearest_scan q v rest]
  end.

Record Model : Type := mkModel {
  m_ParticleSpacing : double;
  m_AttractionDistance : double;
  m_MinMoveDistance : double;
  m_Stickiness : double;
  m_BoundingRadius : double;
  m_Index : Index
}.

Definition DefaultParticleSpacing : double := Fin 1.
Definition DefaultAttractionDistance : double := Fin 3.
Definition DefaultMinMoveDistance : double := Fin 1.
Definition DefaultStickiness : double := Fin 1.

(** [Model()] *)
Definition Model0 : Model :=
  mkModel DefaultParticleSpacing DefaultAttractionDistance
          DefaultMinMoveDistance DefaultStickiness (Fin 0) [].

Definition SetParticleSpacing (m : Model) (a : double) : Model :=
  mkModel a (m_AttractionDistance m) (m_MinMoveDistance m) (m_Stickiness m)
          (m_BoundingRadius m) (m_Index m).

Definition SetAttractionDistance (m : Model) (a : double) : Model :=
  mkModel (m_ParticleSpacing m) a (m_MinMoveDistance m) (m_Stickiness m)
          (m_BoundingRadius m) (m_Index m).

Definition SetMinMoveDistance (m : Model) (a : double) : Model :=
  mkModel (m_ParticleSpacing m) (m_AttractionDistance m) a (m_Stickiness m)
          (m_BoundingRadius m) (m_Index m).

Definition SetStickiness (m : Model) (a : double) : Model :=
  mkModel (m_ParticleSpacing m) (m_AttractionDistance m) (m_MinMoveDistance m) a
          (m_BoundingRadius m) (m_Index m).

(** [Add] returns the new model and the record written to [stdout]. *)
Definition Add (m : Model) (p : Vector) (parent : Z) : Model * Record_ :=
  let id := to_int (index_size (m_Index m)) in
  let idx := index_insert (m_Index m) (ToBoost p, id) in
  let radius :=
    dmax (m_BoundingRadius m) (dadd (Length p) (m_AttractionDistance m)) in
  let record :=
    mkRecord (to_uint32 parent)
             (static_cast_float (m_X p))
             (static_cast_float (m_Y p))
             (static_cast_float (m_Z p)) in
  (mkModel (m_ParticleSpacing m) (m_AttractionDistance m)
           (m_MinMoveDistance m) (m_Stickiness m) radius idx,
   record).

(** [IndexValue result;]: [std::pair]'s default constructor
    value-initialises both members, the point and the [int]. *)
Definition IndexValue0 : IndexValue := ((Fin 0, Fin 0, Fin 0), 0%Z).

(** [Nearest]: the output iterator assigns every value the query yields
    to [result]. *)
Definition Nearest (m : Model) (point : Vector) : IndexValue :=
  let result := IndexValue0 in
  fold_left (fun _ value => value)
            (index_query_nearest1 (m_Index m) (ToBoost point))
            result.

(** ** Randomness

    The thread-local generator is a tape of the canonical draws it will
    produce, each in [0, 1).  A computation that needs a draw from an
    exhausted tape has no result. *)

Definition Tape : Type := list R.

Definition Rand (A : Type) : Type := Tape -> option (A * Tape).

Definition ret {A} (a : A) : Rand A := fun t => Some (a, t).

Definition bind {A B} (c : Rand A) (k : A -> Rand B) : Rand B :=
  fun t => match c t with
           | Some (a, t') => k a t'
           | None => None
           end.

Notation "x <- c ;; k" := (bind c (fun x => k))
  (at level 61, c at next level, right associativity).

(** [Random(lo, hi)] *)
Definition Random (lo hi : double) : Rand double :=
  fun t => match t with
           | [] => None
           | u :: t' => Some (dadd lo (dmul (dsub hi lo) (Fin u)), t')
           end.

(** number of dimensions *)
Definition D : Z := 3.

(** [RandomInUnitSphere]: the rejection loop, at most [fuel] rounds.  The
    coordinates are drawn in the order they are written. *)
Fixpoint RandomInUnitSphere_loop (fuel : nat) : Rand Vector :=
  match fuel with
  | O => fun _ => None
  | S fuel' =>
      x <- Random (Fin (-1)) (Fin 1) ;;
      y <- Random (Fin (-1)) (Fin 1) ;;
      z <- (if Z.eqb D 2 then ret (Fin 0) else Random (Fin (-1)) (Fin 1)) ;;
      let p := mkVector x y z in
      if dlt (LengthSquared p) (Fin 1) then ret p
      else RandomInUnitSphere_loop fuel'
  end.

(** Every round consumes a draw, so the length of the tape is fuel enough. *)
Definition RandomInUnitSphere : Rand Vector :=
  fun t => RandomInUnitSphere_loop (length t) t.

(** ** The walk *)

Definition RandomStartingPosition (m : Model) : Rand Vector :=
  let d := m_BoundingRadius m in
  v <- RandomInUnitSphere ;;
  ret (vscale (Normalized v) d).

Definition ShouldReset (m : Model) (p : Vector) : bool :=
  dgt (Length p) (dmul (m_BoundingRadius m) (Fin 2)).

Definition ShouldJoin (m : Model) (p : Vector) (parent : IndexValue)
  : Rand bool :=
  r <- Random (Fin 0) (Fin 1) ;;
  ret (dle r (m_Stickiness m)).

Definition PlaceParticle (m : Model) (p parent : Vector) : Vector :=
  Lerp parent p (m_ParticleSpacing m).

Definition MotionVector (m : Model) (p : Vector) : Rand Vector :=
  RandomInUnitSphere.

(** One iteration of the loop of [Walk]: it either returns the new
    particle, or goes on searching from a new position. *)
Inductive WalkOutcome : Type :=
| Joining (result : Vector * Z)
| Searching (p : Vector).

Definition WalkStep (m : Model) (p : Vector) : Rand WalkOutcome :=
  let parent := Nearest m p in
  let parentPoint := VectorOfBoost (fst parent) in
  let d := Distance p parentPoint in
  if dlt d (m_AttractionDistance m) then
    join <- ShouldJoin m p parent ;;
    if negb join then
      ret (Searching
             (Lerp parentPoint p
                   (dadd (m_AttractionDistance m) (m_MinMoveDistance m))))
    else
      ret (Joining (PlaceParticle m p parentPoint, snd parent))
  else
    let mv := dmax (m_MinMoveDistance m) (dsub d (m_AttractionDistance m)) in
    v <- MotionVector m p ;;
    let p' := vadd p (vscale (Normalized v) mv) in
    if ShouldReset m p' then
      p'' <- RandomStartingPosition m ;;
      ret (Searching p'')
    else
      ret (Searching p').

Fixpoint Walk_loop (fuel : nat) (m : Model) (p : Vector)
  : Rand (Vector * Z) :=
  match fuel with
  | O => fun _ => None
  | S fuel' =>
      o <- WalkStep m p ;;
      match o with
      | Joining result => ret result
      | Searching p' => Walk_loop fuel' m p'
      end
  end.

(** [Walk]: every iteration consumes a draw, so the length of the tape
    is fuel enough. *)
Definition Walk (m : Model) : Rand (Vector * Z) :=
  fun t => (p <- RandomStartingPosition m ;; Walk_loop (length t) m p) t.

(** ** The commit phase of a round *)

(** An element of [items]: the result of a [Walk]. *)
Definition Item : Type := (Vector * Z)%type.

(** The inner loop of the commit phase, over the items [items[j]] with
    [j < i], in order: [ok] becomes false, and the loop is left, at the
    first one at a squared distance below the threshold. *)
Fixpoint commit_ok (threshold : double) (item : Item) (earlier : list Item)
  : bool :=
  match earlier with
  | [] => true
  | e :: earlier' =>
      let d2 := DistanceSquared (fst item) (fst e) in
      if dlt d2 threshold then false
      else commit_ok threshold item earlier'
  end.

(** The outer loop, from index [length earlier] on: [earlier] holds
    [items[0..i)], [rest] holds [items[i..)].  It returns the model and
    the records written. *)
Fixpoint commit_loop (threshold : double) (earlier rest : list Item)
  (m : Model) : Model * list Record_ :=
  match rest with
  | [] => (m, [])
  | item :: rest' =>
      let ok := commit_ok threshold item earlier in
      let '(m1, out1) :=
        if ok then
          let '(m', r) := Add m (fst item) (snd item) in (m', [r])
        else (m, []) in
      let '(m2, out2) := commit_loop threshold (earlier ++ [item]) rest' m1 in
      (m2, out1 ++ out2)
  end.

(** [threshold] of [RunForever] *)
Definition threshold (m : Model) : double :=
  dpow2 (dmul (m_AttractionDistance m) (Fin 5)).

(** The body of the coordinator's loop after the two barriers: the batch
    is processed, then cleared. *)
Definition commit (m : Model) (items : list Item) : Model * list Record_ :=
  commit_loop (threshold m) [] items m.


(** The items the commit phase calls [Add] on, in order. *)
Fixpoint accepted_loop (thr : double) (earlier rest : list Item) : list Item :=
  match rest with
  | [] => []
  | item :: rest' =>
      (if commit_ok thr item earlier then [item] else [])
        ++ accepted_loop thr (earlier ++ [item]) rest'
  end.

Definition accepted (thr : double) (items : list Item) : list Item :=
  accepted_loop thr [] items.

(** The same model after a sequence of insertions. *)
Definition AddAll (m : Model) (ps : list Item) : Model :=
  fold_left (fun m' it => fst (Add m' (fst it) (snd it))) ps m.

Definition record_of (it : Item) : Record_ :=
  mkRecord (to_uint32 (snd it))
           (static_cast_float (m_X (fst it)))
           (static_cast_float (m_Y (fst it)))
           (static_cast_float (m_Z (fst it))).

(** ** The search phase of a round: the workers

    One round of the loop of [worker], between the two barriers.  A worker
    is either about to run [Walk] ([done] is false), or holds the item its
    [Walk] returned and waits for the mutex, or has left the inner loop and
    waits at the second barrier.  The critical section (append, test of
    the size) is one step. *)

Inductive WorkerPc : Type :=
| AtWalk
| AtLock (item : Item)
| AtBarrier2.

Record SearchState : Type := mkSearch {
  items : list Item;
  workers : list WorkerPc
}.

(** [l] with the element at index [i] replaced by [x]. *)
Fixpoint set_nth {A} (i : nat) (x : A) (l : list A) : list A :=
  match l, i with
  | [], _ => []
  | _ :: l', O => x :: l'
  | y :: l', S i' => y :: set_nth i' x l'
  end.

(** [done = items.size() >= batchSize;] the [int] is converted to
    [size_t] for the comparison. *)
Definition batch_done (batchSize : Z) (its : list Item) : bool :=
  Z.geb (Z.of_nat (length its)) (to_size_t batchSize).

Section Round.

Variable m : Model.
Variable batchSize : Z.

Inductive worker_step : list Item -> WorkerPc -> list Item -> WorkerPc -> Prop :=
| step_walk its item t t' :
    Walk m t = Some (item, t') ->
    worker_step its AtWalk its (AtLock item)
| step_push its item :
    worker_step its (AtLock item)
                (its ++ [item])
                (if batch_done batchSize (its ++ [item])
                 then AtBarrier2 else AtWalk).

Inductive search_step : SearchState -> SearchState -> Prop :=
| search_step_intro its ws i pc its' pc' :
    nth_error ws i = Some pc ->
    worker_step its pc its' pc' ->
    search_step (mkSearch its ws) (mkSearch its' (set_nth i pc' ws)).

Inductive search_steps : SearchState -> SearchState -> Prop :=
| search_refl s : search_steps s s
| search_more s1 s2 s3 :
    search_steps s1 s2 -> search_step s2 s3 -> search_steps s1 s3.

End Round.

(** The state when the first barrier opens: the batch is empty and every
    worker enters its inner loop. *)
Definition search_init (numThreads : Z) : SearchState :=
  mkSearch [] (repeat AtWalk (Z.to_nat numThreads)).

(** The second barrier opens when every worker has reached it. *)
Definition all_at_barrier2 (s : SearchState) : Prop :=
  Forall (fun pc => pc = AtBarrier2) (workers s).

(** One event of a schedule: the worker that moves, and the result of its
    [Walk] when the move is the end of a [Walk]. *)
Definition run_event (batchSize : Z) (s : SearchState) (e : nat * Item)
  : option SearchState :=
  let '(i, item) := e in
  match nth_error (workers s) i with
  | Some AtWalk => Some (mkSearch (items s) (set_nth i (AtLock item) (workers s)))
  | Some (AtLock it) =>
      let its := items s ++ [it] in
      Some (mkSearch its
              (set_nth i (if batch_done batchSize its then AtBarrier2 else AtWalk)
                       (workers s)))
  | _ => None
  end.

Fixpoint run_schedule (batchSize : Z) (s : SearchState) (es : list (nat * Item))
  : option SearchState :=
  match es with
  | [] => Some s
  | e :: es' =>
      match run_event batchSize s e with
      | Some s' => run_schedule batchSize s' es'
      | None => None
      end
  end.

(** ** Seeding in [main] *)

Definition NumThreads : Z := 16.
Definition BatchSize : Z := 128.

(** The loop over the records of [stdin]: [stdin] lists the whole records
    read before [fread] returns 0.  [count] is the number read. *)
Fixpoint seed_loop (m : Model) (stdin : list Record_) (count : Z)
  : Model * list Record_ * Z :=
  match stdin with
  | [] => (m, [], count)
  | r :: stdin' =>
      let '(m1, o) := Add m (mkVector (X r) (Y r) (Z_ r)) (to_int (ParentID r)) in
      let '(m2, out, count') := seed_loop m1 stdin' (count + 1)%Z in
      (m2, o :: out, count')
  end.

(** [main] up to the call of [RunForever]: the model and the records
    written so far. *)
Definition main_seed (stdin : list Record_) : Model * list Record_ :=
  let '(m, out, count) := seed_loop Model0 stdin 0%Z in
  if Z.eqb count 0 then
    let '(m', o) := Add m Vector0 (-1)%Z in (m', out ++ [o])
  else (m, out).

(** ** Finite coordinates *)

Definition sumsq (x y z : R) : R := x * x + y * y + z * z.

Definition norm3 (x y z : R) : R := sqrt (sumsq x y z).

(** The vector with finite coordinates [x], [y], [z]. *)
Definition vec (x y z : R) : Vector := mkVector (Fin x) (Fin y) (Fin z).


Definition finite_vector (v : Vector) : Prop :=
  is_finite (m_X v) /\ is_finite (m_Y v) /\ is_finite (m_Z v).

(** ** The acceptance rule of the commit phase, as specified and as coded *)






(** The claim on the size of the batch, in the words of the
    specification: the batch never holds more than [batchSize] entries. *)
Definition batch_at_most_batchSize (m : Model) (numThreads batchSize : Z) : Prop :=
  forall s,
    search_steps m batchSize (search_init numThreads) s ->
    (Z.of_nat (length (items s)) <= batchSize)%Z.

(** The workers that have not reached the second barrier. *)
Definition is_pending (pc : WorkerPc) : bool :=
  match pc with AtBarrier2 => false | _ => true end.

Definition pending (ws : list WorkerPc) : nat := length (filter is_pending ws).

Definition pending1 (pc : WorkerPc) : nat := if is_pending pc then 1 else 0.

(** The invariant of the search phase, for [n] workers and a batch size
    [bs] (as a [size_t]): as long as the batch is not full no worker has
    left the loop; from then on every append is the last of its worker. *)
Definition round_inv (bs : Z) (n : nat) (s : SearchState) : Prop :=
  length (workers s) = n
  /\ let len := Z.of_nat (length (items s)) in
     let k := Z.of_nat (pending (workers s)) in
     ((len < Z.max bs 1 /\ k = Z.of_nat n)
      \/ (Z.max bs 1 <= len /\ len + k = Z.max bs 1 + Z.of_nat n - 1))%Z.

(** ** Concrete inputs *)

(** The model [main] hands to [RunForever] when no seed record is read. *)
Definition seeded_model : Model := fst (main_seed []).

(** A batch of three candidates on a line, 10 apart. *)
Definition batch3 : list Item :=
  [(vec 100 0 0, 0%Z); (vec 110 0 0, 0%Z); (vec 120 0 0, 0%Z)].

(** Seven draws: a starting direction, a motion vector, a join decision. *)
Definition tape7 : Tape := [1/4; 1/2; 1/2; 3/4; 1/2; 1/2; 0].

(** The result of [Walk] on [seeded_model] with the draws [tape7]. *)
Definition item7 : Item := (vec (-1) 0 0, 0%Z).

(** A schedule of a round of 16 workers and a batch size of 128: the
    workers 1 to 15 finish a [Walk] each; worker 0 walks and appends 128
    times; then the workers 1 to 15 append what they hold. *)
Definition in_flight : list (nat * Item) :=
  map (fun i => (i, item7)) (seq 1 15).

Definition schedule143 : list (nat * Item) :=
  in_flight ++ concat (repeat [(0%nat, item7); (0%nat, item7)] 128) ++ in_flight.

(** The size of the batch, and whether every worker is at the second
    barrier. *)
Definition summary (s : SearchState) : nat * bool :=
  (length (items s), forallb (fun pc => negb (is_pending pc)) (workers s)).

(** ** The program as a whole: seeding, then rounds *)

(** The particle a seed record describes: [Vector(r.X, r.Y, r.Z)] and
    [r.ParentID] converted to the [int] parameter of [Add]. *)
Definition item_of_record (r : Record_) : Item :=
  (mkVector (X r) (Y r) (Z_ r), to_int (ParentID r)).

(** The bounding radius covers every particle of the index plus the
    attraction distance (radius, distance and positions being finite). *)
Definition radius_covers (m : Model) : Prop :=
  exists r a,
    m_BoundingRadius m = Fin r
    /\ m_AttractionDistance m = Fin a
    /\ 0 <= r
    /\ forall e, In e (m_Index m) ->
         exists x y z,
           fst e = (Fin x, Fin y, Fin z) /\ norm3 x y z + a <= r.

Definition finite_items (ps : list Item) : Prop :=
  Forall (fun it => finite_vector (fst it)) ps.

Definition finite_record (r : Record_) : Prop :=
  is_finite (X r) /\ is_finite (Y r) /\ is_finite (Z_ r).

(** A vector with a NaN coordinate. *)
Definition has_NaN (v : Vector) : Prop :=
  m_X v = NaN \/ m_Y v = NaN \/ m_Z v = NaN.

(** An item is a result of [Walk] on the model [m], for some draws. *)
Definition walk_result (m : Model) (it : Item) : Prop :=
  exists t t', Walk m t = Some (it, t').

(** The items the workers hold while waiting for the mutex. *)
Definition held_items (ws : list WorkerPc) : list Item :=
  flat_map (fun pc => match pc with AtLock it => [it] | _ => [] end) ws.

(** A schedule of a round of two workers: each walks and appends once. *)
Definition schedule2 : list (nat * Item) :=
  [(0%nat, item7); (0%nat, item7); (1%nat, item7); (1%nat, item7)].

(** The coordinates of a record, as an index position. *)
Definition coords (r : Record_) : BoostPoint := (X r, Y r, Z_ r).

(** The index lists the records written so far, in order, each with its
    position in the output as ID. *)
Definition index_mirrors_output (m : Model) (out : list Record_) : Prop :=
  m_Index m = combine (map coords out) (map Z.of_nat (seq 0 (length out))).

(** The states of the program at the start of a round: [main] seeds the
    model, then [RunForever] alternates search phases and commit phases.
    [program_state numThreads batchSize k m out] holds when the model is
    [m] and the records written so far are [out], the first [k] of them
    during seeding. *)
Inductive program_state (numThreads batchSize : Z)
  : nat -> Model -> list Record_ -> Prop :=
| after_seeding stdin :
    program_state numThreads batchSize
                  (length (snd (main_seed stdin)))
                  (fst (main_seed stdin)) (snd (main_seed stdin))
| after_round k m out s :
    program_state numThreads batchSize k m out ->
    search_steps m batchSize (search_init numThreads) s ->
    all_at_barrier2 s ->
    program_state numThreads batchSize k
                  (fst (commit m (items s)))
                  (out ++ snd (commit m (items s))).

(** * The same code on binary64

    The model of [double] above computes exactly on finite values.  That
    leaves comparisons, NaN and the structure of the program as they
    are, but not the values the program computes.  The module [B64]
    embeds the vector type, [Lerp], the random draws and the [Model] class
    up to [Walk] once more, on the binary64 floating-point numbers of the
    machine ([float]): every operation rounds, underflows and overflows
    as the [double] operation of the source does, evaluated operation by
    operation in the order the source writes them. *)

Module B64.

Import Floats.PrimFloat Floats.SpecFloat Floats.FloatOps.
Local Open Scope float_scope.

Record Vector : Type := mkVector { m_X : float; m_Y : float; m_Z : float }.

(** [Vector()] *)
Definition Vector0 : Vector := mkVector 0 0 0.

(** Modelled from the spec: the boost point type is not part of the
    sources.  It holds the [D = 3] coordinates, which are zero when the
    point is value-initialised. *)
Definition BoostPoint : Type := (float * float * float)%type.

(** [Vector(BoostPoint p)] *)
Definition VectorOfBoost (p : BoostPoint) : Vector :=
  let '(x, y, z) := p in mkVector x y z.

Definition ToBoost (v : Vector) : BoostPoint := (m_X v, m_Y v, m_Z v).

Definition Length (v : Vector) : float :=
  sqrt (m_X v * m_X v + m_Y v * m_Y v + m_Z v * m_Z v).

Definition LengthSquared (v : Vector) : float :=
  m_X v * m_X v + m_Y v * m_Y v + m_Z v * m_Z v.

Definition Distance (u v : Vector) : float :=
  let dx := m_X u - m_X v in
  let dy := m_Y u - m_Y v in
  let dz := m_Z u - m_Z v in
  sqrt (dx * dx + dy * dy + dz * dz).

Definition DistanceSquared (u v : Vector) : float :=
  let dx := m_X u - m_X v in
  let dy := m_Y u - m_Y v in
  let dz := m_Z u - m_Z v in
  dx * dx + dy * dy + dz * dz.

Definition Normalized (v : Vector) : Vector :=
  let m := 1 / Length v in
  mkVector (m_X v * m) (m_Y v * m) (m_Z v * m).

(** [operator+], [operator-], [operator*] *)
Definition vadd (u v : Vector) : Vector :=
  mkVector (m_X u + m_X v) (m_Y u + m_Y v) (m_Z u + m_Z v).

Definition vsub (u v : Vector) : Vector :=
  mkVector (m_X u - m_X v) (m_Y u - m_Y v) (m_Z u - m_Z v).

Definition vscale (v : Vector) (a : float) : Vector :=
  mkVector (m_X v * a) (m_Y v * a) (m_Z v * a).

(** [Lerp] linearly interpolates from [a] to [b] by distance [d]. *)
Definition Lerp (a b : Vector) (d : float) : Vector :=
  vadd a (vscale (Normalized (vsub b a)) d).

(** [std::max(a, b)] is [(a < b) ? b : a]. *)
Definition dmax (a b : float) : float := if a <? b then b else a.

(** No coordinate of the vector is a finite number. *)
Definition nowhere_finite (v : Vector) : Prop :=
  is_finite (m_X v) = false
  /\ is_finite (m_Y v) = false
  /\ is_finite (m_Z v) = false.

Definition finite_vector (v : Vector) : Prop :=
  is_finite (m_X v) = true
  /\ is_finite (m_Y v) = true
  /\ is_finite (m_Z v) = true.

(** ** Records, index and model state *)

Record Record_ : Type := mkRecord {
  ParentID : Z;
  X : float;
  Y : float;
  Z_ : float
}.

(** [static_cast<float>]: the [double] is rounded to the nearest
    binary32 number (24 bits of precision, exponents up to 128), which
    is then a [double] again. *)
Definition static_cast_float (x : float) : float :=
  SF2Prim (match Prim2SF x with
           | S754_finite s m e => binary_round 24 128 s m e
           | sf => sf
           end).

Definition IndexValue : Type := (BoostPoint * Z)%type.

(** Modelled from the spec: the boost R-tree [Index] is not part of the
    sources.  It is the list of the inserted values, in insertion order;
    [insert] appends, [size] is the length, and the query for the single
    nearest value yields the value at the least squared distance from the
    query point (the first such one), and nothing when the index is empty. *)
Definition Index : Type := list IndexValue.

Definition index_size (idx : Index) : Z := Z.of_nat (length idx).

Definition index_insert (idx : Index) (v : IndexValue) : Index := idx ++ [v].

Definition comparable_distance (q p : BoostPoint) : float :=
  DistanceSquared (VectorOfBoost q) (VectorOfBoost p).

Fixpoint nearest_scan (q : BoostPoint) (best : IndexValue) (rest : Index)
  : IndexValue :=
  match rest with
  | [] => best
  | v :: rest' =>
      nearest_scan q
        (if comparable_distance q (fst v) <? comparable_distance q (fst best)
         then v else best)
        rest'
  end.

Definition index_query_nearest1 (idx : Index) (q : BoostPoint)
  : list IndexValue :=
  match idx with
  | [] => []
  | v :: rest => [nearest_scan q v rest]
  end.

Record Model : Type := mkModel {
  m_ParticleSpacing : float;
  m_AttractionDistance : float;
  m_MinMoveDistance : float;
  m_Stickiness : float;
  m_BoundingRadius : float;
  m_Index : Index
}.

Definition DefaultParticleSpacing : float := 1.
Definition DefaultAttractionDistance : float := 3.
Definition DefaultMinMoveDistance : float := 1.
Definition DefaultStickiness : float := 1.

(** [Model()] *)
Definition Model0 : Model :=
  mkModel DefaultParticleSpacing DefaultAttractionDistance
          DefaultMinMoveDistance DefaultStickiness 0 [].

Definition SetParticleSpacing (m : Model) (a : float) : Model :=
  mkModel a (m_AttractionDistance m) (m_MinMoveDistance m) (m_Stickiness m)
          (m_BoundingRadius m) (m_Index m).

Definition SetAttractionDistance (m : Model) (a : float) : Model :=
  mkModel (m_ParticleSpacing m) a (m_MinMoveDistance m) (m_Stickiness m)
          (m_BoundingRadius m) (m_Index m).

Definition SetMinMoveDistance (m : Model) (a : float) : Model :=
  mkModel (m_ParticleSpacing m) (m_AttractionDistance m) a (m_Stickiness m)
          (m_BoundingRadius m) (m_Index m).

Definition SetStickiness (m : Model) (a : float) : Model :=
  mkModel (m_ParticleSpacing m) (m_AttractionDistance m) (m_MinMoveDistance m) a
          (m_BoundingRadius m) (m_Index m).

(** [Add] returns the new model and the record written to [stdout]. *)
Definition Add (m : Model) (p : Vector) (parent : Z) : Model * Record_ :=
  let id := to_int (index_size (m_Index m)) in
  let idx := index_insert (m_Index m) (ToBoost p, id) in
  let radius := dmax (m_BoundingRadius m) (Length p + m_AttractionDistance m) in
  let record :=
    mkRecord (to_uint32 parent)
             (static_cast_float (m_X p))
             (static_cast_float (m_Y p))
             (static_cast_float (m_Z p)) in
  (mkModel (m_ParticleSpacing m) (m_AttractionDistance m)
           (m_MinMoveDistance m) (m_Stickiness m) radius idx,
   record).

(** [IndexValue result;]: [std::pair]'s default constructor
    value-initialises both members, the point and the [int]. *)
Definition IndexValue0 : IndexValue := ((0, 0, 0), 0%Z).

Definition Nearest (m : Model) (point : Vector) : IndexValue :=
  let result := IndexValue0 in
  fold_left (fun _ value => value)
            (index_query_nearest1 (m_Index m) (ToBoost point))
            result.

(** ** Randomness

    The thread-local generator is a tape of the canonical draws it will
    produce, each in [0, 1). *)

Definition Tape : Type := list float.

Definition Rand (A : Type) : Type := Tape -> option (A * Tape).

Definition ret {A} (a : A) : Rand A := fun t => Some (a, t).

Definition bind {A B} (c : Rand A) (k : A -> Rand B) : Rand B :=
  fun t => match c t with
           | Some (a, t') => k a t'
           | None => None
           end.

(** [Random(lo, hi)]: the distribution scales the canonical draw [u] to
    [u * (hi - lo) + lo], as the standard libraries do. *)
Definition Random (lo hi : float) : Rand float :=
  fun t => match t with
           | [] => None
           | u :: t' => Some (u * (hi - lo) + lo, t')
           end.

(** [RandomInUnitSphere]: the rejection loop, at most [fuel] rounds.  The
    coordinates are drawn in the order they are written. *)
Fixpoint RandomInUnitSphere_loop (fuel : nat) : Rand Vector :=
  match fuel with
  | O => fun _ => None
  | S fuel' =>
      bind (Random (-1) 1) (fun x =>
      bind (Random (-1) 1) (fun y =>
      bind (if Z.eqb D 2 then ret 0 else Random (-1) 1) (fun z =>
      let p := mkVector x y z in
      if LengthSquared p <? 1 then ret p
      else RandomInUnitSphere_loop fuel')))
  end.

Definition RandomInUnitSphere : Rand Vector :=
  fun t => RandomInUnitSphere_loop (length t) t.

(** The point that three canonical draws give: each coordinate is
    [Random(-1, 1)]. *)
Definition cube_point (u1 u2 u3 : float) : Vector :=
  mkVector (u1 * (1 - -1) + -1) (u2 * (1 - -1) + -1) (u3 * (1 - -1) + -1).

(** What [RandomInUnitSphere] is meant to do with the draws, as a
    relation between the tape, the result and the rest of the tape: the
    draws are read three at a time, and the first triple whose point has
    a squared length below 1 gives the result, every triple before it
    having been rejected. *)
Inductive sphere_draws : Tape -> Vector -> Tape -> Prop :=
| sphere_accept (u1 u2 u3 : float) (t : Tape) :
    (LengthSquared (cube_point u1 u2 u3) <? 1) = true ->
    sphere_draws (u1 :: u2 :: u3 :: t) (cube_point u1 u2 u3) t
| sphere_reject (u1 u2 u3 : float) (t : Tape) (p : Vector) (t' : Tape) :
    (LengthSquared (cube_point u1 u2 u3) <? 1) = false ->
    sphere_draws t p t' ->
    sphere_draws (u1 :: u2 :: u3 :: t) p t'.

(** ** The walk *)

Definition RandomStartingPosition (m : Model) : Rand Vector :=
  let d := m_BoundingRadius m in
  bind RandomInUnitSphere (fun v =>
  ret (vscale (Normalized v) d)).

Definition ShouldReset (m : Model) (p : Vector) : bool :=
  m_BoundingRadius m * 2 <? Length p.

Definition ShouldJoin (m : Model) (p : Vector) (parent : IndexValue)
  : Rand bool :=
  bind (Random 0 1) (fun r =>
  ret (r <=? m_Stickiness m)).

Definition PlaceParticle (m : Model) (p parent : Vector) : Vector :=
  Lerp parent p (m_ParticleSpacing m).

Definition MotionVector (m : Model) (p : Vector) : Rand Vector :=
  RandomInUnitSphere.

Inductive WalkOutcome : Type :=
| Joining (result : Vector * Z)
| Searching (p : Vector).

(** One iteration of the loop of [Walk]. *)
Definition WalkStep (m : Model) (p : Vector) : Rand WalkOutcome :=
  let parent := Nearest m p in
  let parentPoint := VectorOfBoost (fst parent) in
  let d := Distance p parentPoint in
  if d <? m_AttractionDistance m then
    bind (ShouldJoin m p parent) (fun join =>
    if negb join then
      ret (Searching
             (Lerp parentPoint p
                   (m_AttractionDistance m + m_MinMoveDistance m)))
    else
      ret (Joining (PlaceParticle m p parentPoint, snd parent)))
  else
    let mv := dmax (m_MinMoveDistance m) (d - m_AttractionDistance m) in
    bind (MotionVector m p) (fun v =>
    let p' := vadd p (vscale (Normalized v) mv) in
    if ShouldReset m p' then
      bind (RandomStartingPosition m) (fun p'' =>
      ret (Searching p''))
    else
      ret (Searching p')).

Fixpoint Walk_loop (fuel : nat) (m : Model) (p : Vector)
  : Rand (Vector * Z) :=
  match fuel with
  | O => fun _ => None
  | S fuel' =>
      bind (WalkStep m p) (fun o =>
      match o with
      | Joining result => ret result
      | Searching p' => Walk_loop fuel' m p'
      end)
  end.

Definition Walk (m : Model) : Rand (Vector * Z) :=
  fun t => bind (RandomStartingPosition m) (fun p => Walk_loop (length t) m p) t.

(** ** Concrete inputs *)

(** The model of [main] when no seed record is read. *)
Definition seeded_model : Model := fst (Add Model0 Vector0 (-1)).




End B64.
(** * Properties *)

(** ** Comparisons of reals as booleans *)

Lemma Rltb_true (a b : R) : a < b -> Rltb a b = true.
Proof. intros H; unfold Rltb; destruct (Rlt_dec a b); [reflexivity | contradiction]. Qed.

Lemma Rltb_false (a b : R) : b <= a -> Rltb a b = false.
Proof. intros H; unfold Rltb; destruct (Rlt_dec a b); [lra | reflexivity]. Qed.

Lemma Rltb_iff (a b : R) : Rltb a b = true <-> a < b.
Proof.
  unfold Rltb; destruct (Rlt_dec a b); split; intros; try assumption;
    try reflexivity; try discriminate; contradiction.
Qed.


Lemma Rleb_true (a b : R) : a <= b -> Rleb a b = true.
Proof. intros H; unfold Rleb; destruct (Rle_dec a b); [reflexivity | contradiction]. Qed.

Lemma Rleb_false (a b : R) : b < a -> Rleb a b = false.
Proof. intros H; unfold Rleb; destruct (Rle_dec a b); [lra | reflexivity]. Qed.

Lemma Reqb_true (a b : R) : a = b -> Reqb a b = true.
Proof. intros H; unfold Reqb; destruct (Req_dec_T a b); [reflexivity | contradiction]. Qed.

Lemma Reqb_false (a b : R) : a <> b -> Reqb a b = false.
Proof. intros H; unfold Reqb; destruct (Req_dec_T a b); [contradiction | reflexivity]. Qed.

(** Decide the comparisons of closed real expressions met in a goal. *)
Ltac rcompare :=
  repeat match goal with
    | |- context [Rltb ?a ?b] =>
        first [ rewrite (Rltb_true a b) by lra
              | rewrite (Rltb_false a b) by lra ]
    | |- context [Rleb ?a ?b] =>
        first [ rewrite (Rleb_true a b) by lra
              | rewrite (Rleb_false a b) by lra ]
    | |- context [Reqb ?a ?b] =>
        first [ rewrite (Reqb_true a b) by lra
              | rewrite (Reqb_false a b) by lra ]
    end.

(** ** The Euclidean norm on finite coordinates *)

Lemma sumsq_nonneg (x y z : R) : 0 <= sumsq x y z.
Proof. unfold sumsq; nra. Qed.

Lemma norm3_nonneg (x y z : R) : 0 <= norm3 x y z.
Proof. apply sqrt_pos. Qed.

Lemma norm3_sqr (x y z : R) : norm3 x y z * norm3 x y z = sumsq x y z.
Proof. apply sqrt_sqrt, sumsq_nonneg. Qed.

Lemma norm3_zero_iff (x y z : R) :
  norm3 x y z = 0 <-> x = 0 /\ y = 0 /\ z = 0.
Proof.
  split.
  - intros H. pose proof (norm3_sqr x y z) as Hs. rewrite H in Hs.
    unfold sumsq in Hs. repeat split; nra.
  - intros (-> & -> & ->). unfold norm3, sumsq.
    replace (0 * 0 + 0 * 0 + 0 * 0) with 0 by lra. apply sqrt_0.
Qed.

Lemma norm3_axis (x : R) : 0 <= x -> norm3 x 0 0 = x.
Proof.
  intros H. unfold norm3, sumsq.
  replace (x * x + 0 * 0 + 0 * 0) with (x * x) by lra.
  apply sqrt_square; assumption.
Qed.

Lemma norm3_opp (x y z : R) : norm3 (- x) (- y) (- z) = norm3 x y z.
Proof. unfold norm3; f_equal; unfold sumsq; ring. Qed.

Lemma Length_vec (x y z : R) : Length (vec x y z) = Fin (norm3 x y z).
Proof.
  unfold Length, vec; cbn [m_X m_Y m_Z dmul dadd dsqrt].
  rewrite Rltb_false by (pose proof (sumsq_nonneg x y z); unfold sumsq in *; lra).
  reflexivity.
Qed.

Lemma DistanceSquared_vec (x1 y1 z1 x2 y2 z2 : R) :
  DistanceSquared (vec x1 y1 z1) (vec x2 y2 z2)
  = Fin (sumsq (x1 - x2) (y1 - y2) (z1 - z2)).
Proof. reflexivity. Qed.

Lemma Distance_vec (x1 y1 z1 x2 y2 z2 : R) :
  Distance (vec x1 y1 z1) (vec x2 y2 z2)
  = Fin (norm3 (x1 - x2) (y1 - y2) (z1 - z2)).
Proof.
  unfold Distance, vec; cbn [m_X m_Y m_Z dmul dadd dsub dneg dsqrt].
  rewrite Rltb_false
    by (pose proof (sumsq_nonneg (x1 - x2) (y1 - y2) (z1 - z2));
        unfold sumsq, Rminus in *; lra).
  reflexivity.
Qed.

Lemma vsub_vec (x1 y1 z1 x2 y2 z2 : R) :
  vsub (vec x1 y1 z1) (vec x2 y2 z2) = vec (x1 - x2) (y1 - y2) (z1 - z2).
Proof. reflexivity. Qed.

Lemma vadd_vec (x1 y1 z1 x2 y2 z2 : R) :
  vadd (vec x1 y1 z1) (vec x2 y2 z2) = vec (x1 + x2) (y1 + y2) (z1 + z2).
Proof. reflexivity. Qed.

Lemma vscale_vec (x y z k : R) :
  vscale (vec x y z) (Fin k) = vec (x * k) (y * k) (z * k).
Proof. reflexivity. Qed.

(** [Normalized] of a finite vector that is not the zero vector. *)
Lemma Normalized_vec (x y z : R) :
  norm3 x y z <> 0 ->
  Normalized (vec x y z)
  = vec (x * (1 / norm3 x y z)) (y * (1 / norm3 x y z)) (z * (1 / norm3 x y z)).
Proof.
  intros Hn. unfold Normalized. rewrite Length_vec.
  cbn [ddiv]. rewrite Reqb_false by assumption. reflexivity.
Qed.

(** ** Insertion and the bounding radius *)

Lemma dlt_dle (a b : double) : dlt a b = true -> dle a b = true.
Proof.
  destruct a, b; cbn; try reflexivity; try discriminate.
  intros H%Rltb_iff. apply Rleb_true; lra.
Qed.

Lemma dle_refl (a : double) : a <> NaN -> dle a a = true.
Proof.
  destruct a; cbn; try reflexivity.
  - intros _. apply Rleb_true; lra.
  - intros H; contradiction H; reflexivity.
Qed.

Lemma dmax_not_NaN (a b : double) : a <> NaN -> dmax a b <> NaN.
Proof.
  intros Ha. unfold dmax. destruct (dlt a b) eqn:E; [|assumption].
  destruct a, b; cbn in E; congruence.
Qed.

Lemma dmax_ge_l (a b : double) : a <> NaN -> dle a (dmax a b) = true.
Proof.
  intros Ha. unfold dmax. destruct (dlt a b) eqn:E.
  - apply dlt_dle; assumption.
  - apply dle_refl; assumption.
Qed.

Lemma Add_radius (m : Model) (p : Vector) (parent : Z) :
  m_BoundingRadius (fst (Add m p parent))
  = dmax (m_BoundingRadius m) (dadd (Length p) (m_AttractionDistance m)).
Proof. reflexivity. Qed.

Lemma Add_index (m : Model) (p : Vector) (parent : Z) :
  m_Index (fst (Add m p parent))
  = m_Index m ++ [(ToBoost p, to_int (index_size (m_Index m)))].
Proof. reflexivity. Qed.

Lemma Add_record (m : Model) (p : Vector) (parent : Z) :
  snd (Add m p parent) = record_of (p, parent).
Proof. reflexivity. Qed.

Lemma AddAll_app (m : Model) (ps qs : list Item) :
  AddAll m (ps ++ qs) = AddAll (AddAll m ps) qs.
Proof. apply fold_left_app. Qed.

Lemma AddAll_radius_not_NaN (ps : list Item) :
  forall m, m_BoundingRadius m <> NaN -> m_BoundingRadius (AddAll m ps) <> NaN.
Proof.
  induction ps as [|it ps IH]; intros m Hm; [assumption|].
  change (AddAll m (it :: ps)) with (AddAll (fst (Add m (fst it) (snd it))) ps).
  apply IH. rewrite Add_radius. apply dmax_not_NaN; assumption.
Qed.

Lemma AddAll_attraction (ps : list Item) :
  forall m, m_AttractionDistance (AddAll m ps) = m_AttractionDistance m.
Proof.
  induction ps as [|it ps IH]; intros m; [reflexivity|].
  change (AddAll m (it :: ps)) with (AddAll (fst (Add m (fst it) (snd it))) ps).
  rewrite IH. reflexivity.
Qed.

(** C4.  Let a model whose bounding radius is a number (as it is from
    the constructor on) receive any sequence [ps] of particles, then one
    more, [p].  This last [Add] sets the bounding radius to the maximum of
    the radius before it and of [p]'s distance from the origin plus the
    attraction distance, and the radius after it is greater than or equal
    to the radius before it. *)
Theorem bounding_radius_never_shrinks
  (m : Model) (ps : list Item) (p : Vector) (parent : Z) :
  m_BoundingRadius m <> NaN ->
  let before := AddAll m ps in
  let after := AddAll m (ps ++ [(p, parent)]) in
  m_BoundingRadius after
  = dmax (m_BoundingRadius before)
         (dadd (Distance p Vector0) (m_AttractionDistance m))
  /\ dge (m_BoundingRadius after) (m_BoundingRadius before) = true.
Proof.
  intros Hm before after. subst before after.
  rewrite AddAll_app.
  change (AddAll (AddAll m ps) [(p, parent)])
    with (fst (Add (AddAll m ps) p parent)).
  rewrite Add_radius, AddAll_attraction.
  assert (HL : Length p = Distance p Vector0).
  { unfold Length, Distance, Vector0; cbn [m_X m_Y m_Z].
    assert (Hz : forall a, dsub a (Fin 0) = a).
    { intros [r| | |]; cbn; try reflexivity. f_equal; lra. }
    rewrite !Hz. reflexivity. }
  rewrite HL. split; [reflexivity|].
  unfold dge. apply dmax_ge_l. apply AddAll_radius_not_NaN; assumption.
Qed.

Lemma bounding_radius_never_shrinks_witness :
  m_BoundingRadius Model0 <> NaN
  /\ dge (m_BoundingRadius (AddAll Model0 ([(vec 1 0 0, 0%Z)] ++ [(vec 2 0 0, 0%Z)])))
         (m_BoundingRadius (AddAll Model0 [(vec 1 0 0, 0%Z)])) = true.
Proof.
  split; [discriminate|].
  apply (bounding_radius_never_shrinks Model0 [(vec 1 0 0, 0%Z)] (vec 2 0 0) 0%Z).
  discriminate.
Defined.

(** ** The query on an empty index, and seeding *)

Lemma seed_loop_count (stdin : list Record_) :
  forall m count,
    snd (seed_loop m stdin count) = (count + Z.of_nat (length stdin))%Z.
Proof.
  induction stdin as [|r stdin IH]; intros m count; cbn [seed_loop].
  - cbn. lia.
  - destruct (Add m _ _) as [m1 o].
    specialize (IH m1 (count + 1)%Z).
    destruct (seed_loop m1 stdin (count + 1)%Z) as [[m2 out] c'].
    cbn in *. rewrite IH. lia.
Qed.

Lemma seed_loop_index (stdin : list Record_) :
  forall m count,
    (length (m_Index (fst (fst (seed_loop m stdin count))))
     = length (m_Index m) + length stdin)%nat.
Proof.
  induction stdin as [|r stdin IH]; intros m count; cbn [seed_loop].
  - cbn. lia.
  - pose proof (Add_index m (mkVector (X r) (Y r) (Z_ r)) (to_int (ParentID r))) as Hi.
    destruct (Add m _ _) as [m1 o].
    specialize (IH m1 (count + 1)%Z).
    destruct (seed_loop m1 stdin (count + 1)%Z) as [[m2 out] c'].
    cbn in *. rewrite IH, Hi, length_app. cbn. lia.
Qed.

(** After seeding, the index holds at least one particle. *)
Lemma main_seed_index_nonempty (stdin : list Record_) :
  m_Index (fst (main_seed stdin)) <> [].
Proof.
  unfold main_seed.
  pose proof (seed_loop_count stdin Model0 0%Z) as Hc.
  pose proof (seed_loop_index stdin Model0 0%Z) as Hi.
  destruct (seed_loop Model0 stdin 0%Z) as [[m out] count].
  cbn [fst snd] in *.
  destruct (Z.eqb count 0) eqn:E.
  - pose proof (Add_index m Vector0 (-1)%Z) as Ha.
    destruct (Add m Vector0 (-1)%Z) as [m' o]. cbn [fst] in *.
    rewrite Ha. intros H.
    apply (f_equal (@length _)) in H. rewrite length_app in H. cbn in H. lia.
  - apply Z.eqb_neq in E. cbn [fst]. intros H. rewrite H in Hi. cbn in Hi.
    destruct stdin; cbn in *; [lia | discriminate].
Qed.

(** C10.  On an empty index [Nearest] returns, for every query point, the
    value-initialised entry: position (0,0,0) and particle ID 0.  This is
    the very answer a model holding the single particle (0,0,0) with ID 0
    gives to the same query.  [main] makes the index non-empty before the
    first query. *)
Theorem Nearest_empty_index (m m1 : Model) (point : Vector) :
  m_Index m = [] ->
  m_Index m1 = [((Fin 0, Fin 0, Fin 0), 0%Z)] ->
  Nearest m point = ((Fin 0, Fin 0, Fin 0), 0%Z)
  /\ Nearest m1 point = Nearest m point
  /\ forall stdin, m_Index (fst (main_seed stdin)) <> [].
Proof.
  intros H0 H1. unfold Nearest. rewrite H0, H1. cbn.
  repeat split. apply main_seed_index_nonempty.
Qed.

Lemma Length_Vector0 : Length Vector0 = Fin 0.
Proof.
  change Vector0 with (vec 0 0 0). rewrite Length_vec. f_equal.
  apply norm3_zero_iff; auto.
Qed.

Lemma Add_Model0_Vector0 :
  Add Model0 Vector0 (-1)%Z
  = (mkModel (Fin 1) (Fin 3) (Fin 1) (Fin 1) (Fin 3) [((Fin 0, Fin 0, Fin 0), 0%Z)],
     mkRecord 4294967295 (Fin 0) (Fin 0) (Fin 0)).
Proof.
  unfold Add. rewrite Length_Vector0.
  cbn [Model0 m_BoundingRadius m_AttractionDistance DefaultAttractionDistance
       dadd dmax dlt].
  unfold dmax, dlt. rewrite Rltb_true by lra.
  replace (0 + 3) with 3 by lra. reflexivity.
Qed.

Lemma Nearest_empty_index_witness :
  m_Index Model0 = []
  /\ m_Index (fst (Add Model0 Vector0 (-1)%Z)) = [((Fin 0, Fin 0, Fin 0), 0%Z)]
  /\ Nearest Model0 (vec 7 0 0) = ((Fin 0, Fin 0, Fin 0), 0%Z).
Proof.
  split; [reflexivity|]. split; [reflexivity|].
  apply (Nearest_empty_index Model0 (fst (Add Model0 Vector0 (-1)%Z)) (vec 7 0 0));
    reflexivity.
Defined.

(** C8.  With no seed record on the input, [main] reaches the round loop
    after exactly one call of [Add], for the origin and parent -1: the
    index holds the single entry (0,0,0) with ID 0, the bounding radius is
    the attraction distance, and the one record written has the
    coordinates 0 and the no-parent sentinel 4294967295 as parent. *)
Theorem main_seed_no_records :
  main_seed [] = (fst (Add Model0 Vector0 (-1)%Z), [snd (Add Model0 Vector0 (-1)%Z)])
  /\ m_Index (fst (main_seed [])) = [((Fin 0, Fin 0, Fin 0), 0%Z)]
  /\ m_BoundingRadius (fst (main_seed [])) = m_AttractionDistance Model0
  /\ snd (main_seed []) = [mkRecord (to_uint32 (-1)) (Fin 0) (Fin 0) (Fin 0)]
  /\ to_uint32 (-1) = 4294967295%Z.
Proof.
  assert (H : main_seed []
              = (fst (Add Model0 Vector0 (-1)%Z), [snd (Add Model0 Vector0 (-1)%Z)])).
  { reflexivity. }
  rewrite H, Add_Model0_Vector0. cbn [fst snd].
  repeat split.
Qed.

(** ** The commit phase *)

Lemma commit_loop_accepted (thr : double) (rest : list Item) :
  forall earlier m,
    commit_loop thr earlier rest m
    = (AddAll m (accepted_loop thr earlier rest),
       map record_of (accepted_loop thr earlier rest)).
Proof.
  induction rest as [|item rest IH]; intros earlier m; [reflexivity|].
  cbn [commit_loop accepted_loop].
  destruct (commit_ok thr item earlier).
  - cbn [app map]. unfold AddAll at 1. cbn [fold_left].
    pose proof (Add_record m (fst item) (snd item)) as Hr.
    destruct (Add m (fst item) (snd item)) as [m' r]. cbn [fst snd] in *.
    rewrite IH. subst r. destruct item; reflexivity.
  - rewrite IH. reflexivity.
Qed.









Lemma main_seed_nil :
  main_seed []
  = (mkModel (Fin 1) (Fin 3) (Fin 1) (Fin 1) (Fin 3) [((Fin 0, Fin 0, Fin 0), 0%Z)],
     [mkRecord 4294967295 (Fin 0) (Fin 0) (Fin 0)]).
Proof.
  change (main_seed [])
    with (let '(m', o) := Add Model0 Vector0 (-1)%Z in (m', [] ++ [o])).
  rewrite Add_Model0_Vector0. reflexivity.
Qed.

Lemma seeded_model_eq :
  seeded_model
  = mkModel (Fin 1) (Fin 3) (Fin 1) (Fin 1) (Fin 3) [((Fin 0, Fin 0, Fin 0), 0%Z)].
Proof. unfold seeded_model. rewrite main_seed_nil. reflexivity. Qed.

Lemma threshold_seeded : threshold seeded_model = Fin (3 * 5 * (3 * 5)).
Proof. rewrite seeded_model_eq. reflexivity. Qed.






(** ** Geometry of finite vectors *)

Lemma vec_ext (x y z x' y' z' : R) :
  x = x' -> y = y' -> z = z' -> vec x y z = vec x' y' z'.
Proof. intros -> -> ->; reflexivity. Qed.

Lemma norm3_ext (x y z x' y' z' : R) :
  x = x' -> y = y' -> z = z' -> norm3 x y z = norm3 x' y' z'.
Proof. intros -> -> ->; reflexivity. Qed.

(** ** Random draws *)

Lemma bind_Some {A B} (c : Rand A) (k : A -> Rand B) (t : Tape) (a : A) (t' : Tape) :
  c t = Some (a, t') -> bind c k t = k a t'.
Proof. intros H. unfold bind. rewrite H. reflexivity. Qed.

Lemma bind_inv {A B} (c : Rand A) (k : A -> Rand B) (t : Tape) (r : B * Tape) :
  bind c k t = Some r -> exists a t', c t = Some (a, t') /\ k a t' = Some r.
Proof.
  unfold bind. destruct (c t) as [[a t']|]; [|discriminate].
  intros H. exists a, t'. split; [reflexivity | assumption].
Qed.

Lemma Random_cons (lo hi u : R) (t : Tape) :
  Random (Fin lo) (Fin hi) (u :: t) = Some (Fin (lo + (hi - lo) * u), t).
Proof. reflexivity. Qed.

Lemma Random_inv (lo hi : R) (t : Tape) (x : double) (t' : Tape) :
  Random (Fin lo) (Fin hi) t = Some (x, t') ->
  exists u, t = u :: t' /\ x = Fin (lo + (hi - lo) * u).
Proof.
  destruct t as [|u t0]; cbn; [discriminate|].
  intros H; injection H as <- <-. exists u. split; reflexivity.
Qed.

(** One round of the rejection loop on a tape with three draws. *)
Lemma RandomInUnitSphere_loop_cons (fuel : nat) (u1 u2 u3 : R) (t : Tape) :
  RandomInUnitSphere_loop (S fuel) (u1 :: u2 :: u3 :: t)
  = if Rltb (sumsq (-1 + (1 - -1) * u1) (-1 + (1 - -1) * u2) (-1 + (1 - -1) * u3)) 1
    then Some (vec (-1 + (1 - -1) * u1) (-1 + (1 - -1) * u2) (-1 + (1 - -1) * u3), t)
    else RandomInUnitSphere_loop fuel t.
Proof.
  change (RandomInUnitSphere_loop (S fuel) (u1 :: u2 :: u3 :: t))
    with ((if Rltb (sumsq (-1 + (1 - -1) * u1) (-1 + (1 - -1) * u2)
                          (-1 + (1 - -1) * u3)) 1
           then ret (vec (-1 + (1 - -1) * u1) (-1 + (1 - -1) * u2)
                         (-1 + (1 - -1) * u3))
           else RandomInUnitSphere_loop fuel) t).
  destruct (Rltb _ 1); reflexivity.
Qed.

Lemma dmax_Fin (x y : R) : dmax (Fin x) (Fin y) = Fin (Rmax x y).
Proof.
  unfold dmax, dlt, Rltb, Rmax.
  destruct (Rlt_dec x y), (Rle_dec x y); try reflexivity; try lra.
  f_equal; lra.
Qed.

(** ** The loop of [Walk] *)

Lemma WalkStep_joining_inv (m : Model) (p : Vector) (t t' : Tape) (res : Vector * Z) :
  WalkStep m p t = Some (Joining res, t') ->
  res = (PlaceParticle m p (VectorOfBoost (fst (Nearest m p))), snd (Nearest m p)).
Proof.
  unfold WalkStep.
  destruct (dlt _ (m_AttractionDistance m)).
  - intros H. apply bind_inv in H. destruct H as (join & t1 & _ & H).
    destruct join; cbn [negb] in H; unfold ret in H; congruence.
  - intros H. apply bind_inv in H. destruct H as (v & t1 & _ & H).
    destruct (ShouldReset m _).
    + apply bind_inv in H. destruct H as (p'' & t2 & _ & H).
      unfold ret in H. congruence.
    + unfold ret in H. congruence.
Qed.

Lemma Walk_loop_inv (fuel : nat) (m : Model) :
  forall p t res t',
    Walk_loop fuel m p t = Some (res, t') ->
    exists p0 t0, WalkStep m p0 t0 = Some (Joining res, t').
Proof.
  induction fuel as [|fuel IH]; intros p t res t' H; [discriminate|].
  cbn [Walk_loop] in H. apply bind_inv in H. destruct H as (o & t1 & Hs & H).
  destruct o as [result|p'].
  - unfold ret in H. injection H as <- <-. exists p, t. assumption.
  - eapply IH; eassumption.
Qed.

Lemma Walk_inv (m : Model) (t : Tape) (res : Vector * Z) (t' : Tape) :
  Walk m t = Some (res, t') ->
  exists p,
    res = (PlaceParticle m p (VectorOfBoost (fst (Nearest m p))), snd (Nearest m p)).
Proof.
  unfold Walk. intros H. apply bind_inv in H. destruct H as (p0 & t1 & _ & H).
  apply Walk_loop_inv in H. destruct H as (p & t0 & H).
  exists p. eapply WalkStep_joining_inv; eassumption.
Qed.

(** ** A run of [Walk] *)

Lemma norm3_axis_neg (x : R) : x <= 0 -> norm3 x 0 0 = - x.
Proof.
  intros H. rewrite <- (norm3_axis (- x)) by lra.
  rewrite <- (norm3_opp x 0 0). apply norm3_ext; ring.
Qed.

Lemma Normalized_axis_pos (x : R) : 0 < x -> Normalized (vec x 0 0) = vec 1 0 0.
Proof.
  intros H. assert (E : norm3 x 0 0 = x) by (apply norm3_axis; lra).
  rewrite Normalized_vec by (rewrite E; lra). rewrite E.
  apply vec_ext; field; lra.
Qed.

Lemma Normalized_axis_neg (x : R) : x < 0 -> Normalized (vec x 0 0) = vec (-1) 0 0.
Proof.
  intros H. assert (E : norm3 x 0 0 = - x) by (apply norm3_axis_neg; lra).
  rewrite Normalized_vec by (rewrite E; lra). rewrite E.
  apply vec_ext; field; lra.
Qed.

Lemma RandomInUnitSphere_draw (u1 u2 u3 x y z : R) (t : Tape) :
  x = -1 + (1 - -1) * u1 -> y = -1 + (1 - -1) * u2 -> z = -1 + (1 - -1) * u3 ->
  sumsq x y z < 1 ->
  RandomInUnitSphere (u1 :: u2 :: u3 :: t) = Some (vec x y z, t).
Proof.
  intros -> -> -> H. unfold RandomInUnitSphere. cbn [length].
  rewrite RandomInUnitSphere_loop_cons, Rltb_true by assumption. reflexivity.
Qed.

Lemma Nearest_seeded (p : Vector) :
  Nearest seeded_model p = ((Fin 0, Fin 0, Fin 0), 0%Z).
Proof. rewrite seeded_model_eq. reflexivity. Qed.

Lemma Distance_axis_origin (x : R) :
  x <= 0 -> Distance (vec x 0 0) (vec 0 0 0) = Fin (- x).
Proof.
  intros H. rewrite Distance_vec. f_equal.
  rewrite (norm3_ext _ _ _ x 0 0) by ring. apply norm3_axis_neg; assumption.
Qed.

Lemma start_seeded (t : Tape) :
  RandomStartingPosition seeded_model (1/4 :: 1/2 :: 1/2 :: t)
  = Some (vec (-3) 0 0, t).
Proof.
  unfold RandomStartingPosition.
  rewrite (bind_Some _ _ _ _ _
             (RandomInUnitSphere_draw (1/4) (1/2) (1/2) (-(1/2)) 0 0 _
                ltac:(lra) ltac:(lra) ltac:(lra) ltac:(unfold sumsq; lra))).
  unfold ret. rewrite Normalized_axis_neg by lra.
  rewrite seeded_model_eq. cbn [m_BoundingRadius]. rewrite vscale_vec.
  do 2 f_equal. apply vec_ext; lra.
Qed.

Lemma step1_seeded :
  WalkStep seeded_model (vec (-3) 0 0) [3/4; 1/2; 1/2; 0]
  = Some (Searching (vec (-2) 0 0), [0]).
Proof.
  unfold WalkStep. rewrite Nearest_seeded. cbn [fst snd VectorOfBoost].
  change (mkVector (Fin 0) (Fin 0) (Fin 0)) with (vec 0 0 0).
  rewrite Distance_axis_origin by lra.
  rewrite seeded_model_eq. cbn [m_AttractionDistance m_MinMoveDistance dlt].
  rcompare.
  change (dsub (Fin (- -3)) (Fin 3)) with (Fin (- -3 - 3)). rewrite dmax_Fin.
  unfold MotionVector.
  rewrite (bind_Some _ _ _ _ _
             (RandomInUnitSphere_draw (3/4) (1/2) (1/2) (1/2) 0 0 _
                ltac:(lra) ltac:(lra) ltac:(lra) ltac:(unfold sumsq; lra))).
  rewrite Normalized_axis_pos by lra.
  rewrite vscale_vec, vadd_vec.
  replace (Rmax 1 (- -3 - 3)) with 1 by (symmetry; apply Rmax_left; lra).
  rewrite (vec_ext (-3 + 1 * 1) (0 + 0 * 1) (0 + 0 * 1) (-2) 0 0) by lra.
  unfold ShouldReset. rewrite Length_vec, norm3_axis_neg by lra.
  cbn [m_BoundingRadius dmul dgt dlt]. rcompare. reflexivity.
Qed.

Lemma step2_seeded :
  WalkStep seeded_model (vec (-2) 0 0) [0]
  = Some (Joining (vec (-1) 0 0, 0%Z), []).
Proof.
  unfold WalkStep. rewrite Nearest_seeded. cbn [fst snd VectorOfBoost].
  change (mkVector (Fin 0) (Fin 0) (Fin 0)) with (vec 0 0 0).
  rewrite Distance_axis_origin by lra.
  rewrite seeded_model_eq. cbn [m_AttractionDistance dlt]. rcompare.
  unfold ShouldJoin, bind. rewrite Random_cons. unfold ret.
  cbn [m_Stickiness dle]. rcompare. cbn [negb].
  unfold PlaceParticle, Lerp. cbn [m_ParticleSpacing].
  rewrite vsub_vec. rewrite (vec_ext (-2 - 0) (0 - 0) (0 - 0) (-2) 0 0) by lra.
  rewrite Normalized_axis_neg by lra. rewrite vscale_vec, vadd_vec.
  rewrite (vec_ext (0 + -1 * 1) (0 + 0 * 1) (0 + 0 * 1) (-1) 0 0) by lra.
  reflexivity.
Qed.

(** [Walk] returns: with the draws [tape7] the walker starts at
    (-3,0,0), moves to (-2,0,0) and joins the seed at (-1,0,0). *)
Lemma Walk_seeded : Walk seeded_model tape7 = Some (item7, []).
Proof.
  unfold Walk, tape7. rewrite (bind_Some _ _ _ _ _ (start_seeded _)).
  cbn [length Walk_loop].
  rewrite (bind_Some _ _ _ _ _ step1_seeded). cbn [Walk_loop].
  rewrite (bind_Some _ _ _ _ _ step2_seeded). reflexivity.
Qed.

(** ** Instances *)


(** ** The search phase: how many items the workers append *)

Lemma set_nth_length {A} (i : nat) (x : A) (l : list A) :
  length (set_nth i x l) = length l.
Proof.
  revert i. induction l as [|y l IH]; intros [|i]; cbn; try reflexivity.
  rewrite IH. reflexivity.
Qed.

Lemma pending_set_nth (ws : list WorkerPc) :
  forall i pc pc',
    nth_error ws i = Some pc ->
    (pending (set_nth i pc' ws) + pending1 pc = pending ws + pending1 pc')%nat.
Proof.
  unfold pending, pending1.
  induction ws as [|w ws IH]; intros [|i] pc pc' H; cbn in H; try discriminate.
  - injection H as ->. cbn [set_nth filter].
    destruct (is_pending pc), (is_pending pc'); cbn [length]; lia.
  - specialize (IH i pc pc' H). cbn [set_nth filter].
    destruct (is_pending w); cbn [length]; lia.
Qed.

Lemma pending_repeat_AtWalk (n : nat) : pending (repeat AtWalk n) = n.
Proof.
  unfold pending. induction n as [|n IH]; cbn; [reflexivity|].
  rewrite IH. reflexivity.
Qed.

Lemma pending_all_at_barrier2 (s : SearchState) :
  all_at_barrier2 s -> pending (workers s) = 0%nat.
Proof.
  unfold all_at_barrier2, pending. induction 1 as [|pc ws Hpc _ IH]; [reflexivity|].
  subst pc. cbn. assumption.
Qed.

Lemma round_inv_init (bs : Z) (numThreads : Z) :
  round_inv bs (Z.to_nat numThreads) (search_init numThreads).
Proof.
  unfold round_inv, search_init. cbn [workers items length].
  rewrite repeat_length, pending_repeat_AtWalk. split; [reflexivity|].
  left. lia.
Qed.

Lemma round_inv_step (m : Model) (batchSize : Z) (n : nat) (s s' : SearchState) :
  round_inv (to_size_t batchSize) n s ->
  search_step m batchSize s s' ->
  round_inv (to_size_t batchSize) n s'.
Proof.
  intros [Hlen Hinv] Hstep.
  destruct Hstep as [its ws i pc its' pc' Hnth Hw].
  unfold round_inv. cbn [workers items] in *.
  pose proof (pending_set_nth ws i pc pc' Hnth) as Hp.
  split; [rewrite set_nth_length; assumption|].
  destruct Hw as [its item t t' _ | its item].
  - cbn [pending1 is_pending] in Hp.
    replace (pending (set_nth i (AtLock item) ws)) with (pending ws) by lia.
    exact Hinv.
  - unfold batch_done in *. rewrite !length_app in *. cbn [length] in *.
    destruct (Z.geb_spec (Z.of_nat (length its + 1)) (to_size_t batchSize)) as [Hge|Hlt];
      cbn [pending1 is_pending] in Hp; cbv zeta in *.
    + right. destruct Hinv as [[H1 H2]|[H1 H2]]; lia.
    + left. destruct Hinv as [[H1 H2]|[H1 H2]]; lia.
Qed.

Lemma round_inv_steps (m : Model) (batchSize numThreads : Z) (s : SearchState) :
  search_steps m batchSize (search_init numThreads) s ->
  round_inv (to_size_t batchSize) (Z.to_nat numThreads) s.
Proof.
  assert (H : forall s0 s1,
             search_steps m batchSize s0 s1 ->
             round_inv (to_size_t batchSize) (Z.to_nat numThreads) s0 ->
             round_inv (to_size_t batchSize) (Z.to_nat numThreads) s1).
  { induction 1 as [|s1 s2 s3 _ IH Hstep]; intros H0; [assumption|].
    eapply round_inv_step; [|eassumption]. apply IH. assumption. }
  intros Hs. eapply H; [eassumption|]. apply round_inv_init.
Qed.

(** C2, as the code has it.  With at least one worker and a positive batch
    size, the batch never holds more than batchSize + numThreads - 1
    entries during the search phase, and when every worker has reached the
    second barrier it holds exactly that many: a worker tests the size
    only after its own append, so each of the other workers appends one
    more item after the batch has reached batchSize entries. *)
Theorem batch_size_at_barrier
  (m : Model) (numThreads batchSize : Z) (s : SearchState) :
  (0 < numThreads)%Z ->
  (0 < batchSize < 2 ^ 31)%Z ->
  search_steps m batchSize (search_init numThreads) s ->
  (Z.of_nat (length (items s)) <= batchSize + numThreads - 1)%Z
  /\ (all_at_barrier2 s ->
      Z.of_nat (length (items s)) = batchSize + numThreads - 1)%Z.
Proof.
  intros Hn Hb Hsteps.
  destruct (round_inv_steps m batchSize numThreads s Hsteps) as [Hlen Hinv].
  assert (Hbs : to_size_t batchSize = batchSize).
  { unfold to_size_t. apply Z.mod_small. lia. }
  rewrite Hbs in Hinv. cbv zeta in Hinv.
  rewrite Z2Nat.id in Hinv by lia.
  split.
  - destruct Hinv as [[H1 H2]|[H1 H2]]; lia.
  - intros Hall. apply pending_all_at_barrier2 in Hall. rewrite Hall in Hinv.
    destruct Hinv as [[H1 H2]|[H1 H2]]; lia.
Qed.

(** A schedule is an execution, when its items are results of [Walk]. *)
Lemma run_event_step (m : Model) (batchSize : Z) (s s' : SearchState)
  (e : nat * Item) :
  (exists t t', Walk m t = Some (snd e, t')) ->
  run_event batchSize s e = Some s' ->
  search_step m batchSize s s'.
Proof.
  intros (t & t' & HW) H. destruct e as [i item]. destruct s as [its ws].
  unfold run_event in H. cbn [workers items snd] in *.
  destruct (nth_error ws i) as [[|it|]|] eqn:E; try discriminate;
    injection H as <-.
  - eapply search_step_intro; [eassumption|]. eapply step_walk; eassumption.
  - eapply search_step_intro; [eassumption|]. apply step_push.
Qed.

Lemma run_schedule_steps (m : Model) (batchSize : Z) (es : list (nat * Item)) :
  forall s0 s s',
    Forall (fun e => exists t t', Walk m t = Some (snd e, t')) es ->
    search_steps m batchSize s0 s ->
    run_schedule batchSize s es = Some s' ->
    search_steps m batchSize s0 s'.
Proof.
  induction es as [|e es IH]; intros s0 s s' HF Hs H; cbn [run_schedule] in H.
  - injection H as <-. assumption.
  - destruct (run_event batchSize s e) as [s1|] eqn:E; [|discriminate].
    inversion HF as [|? ? He HF']; subst.
    eapply IH; [eassumption| |eassumption].
    eapply search_more; [eassumption|].
    eapply run_event_step; eassumption.
Qed.

Lemma schedule143_items :
  Forall (fun e => exists t t', Walk seeded_model t = Some (snd e, t')) schedule143.
Proof.
  assert (H : forall e, In e schedule143 -> snd e = item7).
  { intros e He. unfold schedule143, in_flight in He.
    rewrite !in_app_iff in He. destruct He as [He|[He|He]].
    - apply in_map_iff in He. destruct He as (i & <- & _). reflexivity.
    - apply in_concat in He. destruct He as (l & Hl & He).
      apply repeat_spec in Hl. subst l.
      destruct He as [<-|[<-|[]]]; reflexivity.
    - apply in_map_iff in He. destruct He as (i & <- & _). reflexivity. }
  apply Forall_forall. intros e He. exists tape7, [].
  specialize (H e He). destruct e as [i it]. cbn [snd] in *. subst it.
  apply Walk_seeded.
Qed.

Lemma schedule143_runs :
  option_map summary (run_schedule BatchSize (search_init NumThreads) schedule143)
  = Some (143%nat, true).
Proof. lazy. reflexivity. Qed.

Lemma summary_inv (o : option SearchState) (n : nat) (b : bool) :
  option_map summary o = Some (n, b) ->
  exists s,
    o = Some s /\ length (items s) = n
    /\ forallb (fun pc => negb (is_pending pc)) (workers s) = b.
Proof.
  destruct o as [s|]; cbn [option_map]; [|discriminate].
  unfold summary. intros H. injection H as Hlen Hall.
  exists s. repeat split; assumption.
Qed.

(** The round of [main], 16 workers and a batch size of 128, can run to
    the second barrier, and the batch then holds 143 items. *)
Lemma round_of_main_runs :
  exists s,
    search_steps seeded_model BatchSize (search_init NumThreads) s
    /\ all_at_barrier2 s
    /\ length (items s) = 143%nat.
Proof.
  destruct (summary_inv _ _ _ schedule143_runs) as (s & E & Hlen & Hall).
  exists s. split; [|split; [|assumption]].
  - eapply run_schedule_steps; [apply schedule143_items|apply search_refl|exact E].
  - unfold all_at_barrier2. apply Forall_forall. intros pc Hpc.
    rewrite forallb_forall in Hall. specialize (Hall pc Hpc).
    destruct pc; cbn in Hall; [discriminate Hall | discriminate Hall | reflexivity].
Qed.

Lemma batch_size_at_barrier_witness :
  (0 < NumThreads)%Z
  /\ (0 < BatchSize < 2 ^ 31)%Z
  /\ exists s,
       search_steps seeded_model BatchSize (search_init NumThreads) s
       /\ all_at_barrier2 s
       /\ Z.of_nat (length (items s)) = (BatchSize + NumThreads - 1)%Z.
Proof.
  assert (Hn : (0 < NumThreads)%Z) by reflexivity.
  assert (Hb : (0 < BatchSize < 2 ^ 31)%Z) by (split; reflexivity).
  split; [assumption|]. split; [assumption|].
  destruct round_of_main_runs as (s & Hs & Hall & _).
  exists s. split; [assumption|]. split; [assumption|].
  apply (batch_size_at_barrier seeded_model NumThreads BatchSize s Hn Hb Hs).
  assumption.
Defined.

(** C2, as the specification words it, fails for the round of [main]:
    16 workers and a batch size of 128 hand a batch of 143 items to the
    commit phase. *)
Lemma batch_exceeds_batchSize :
  ~ batch_at_most_batchSize seeded_model NumThreads BatchSize.
Proof.
  intros H. destruct round_of_main_runs as (s & Hs & _ & Hlen).
  specialize (H s Hs). rewrite Hlen in H. unfold BatchSize in H. lia.
Qed.

(** * Further properties of the code *)

(** ** Identifiers and the index *)

Lemma AddAll_cons (m : Model) (it : Item) (ps : list Item) :
  AddAll m (it :: ps) = AddAll (fst (Add m (fst it) (snd it))) ps.
Proof. reflexivity. Qed.

Lemma to_int_small (z : Z) : (0 <= z < 2 ^ 31)%Z -> to_int z = z.
Proof.
  intros H. unfold to_int. rewrite Z.mod_small by lia. lia.
Qed.

Lemma to_uint32_to_int (z : Z) :
  (0 <= z < 2 ^ 32)%Z -> to_uint32 (to_int z) = z.
Proof.
  intros H. unfold to_uint32, to_int.
  rewrite Zminus_mod_idemp_l.
  replace (z + 2 ^ 31 - 2 ^ 31)%Z with z by lia.
  apply Z.mod_small. assumption.
Qed.

Lemma AddAll_index (ps : list Item) :
  forall m,
    m_Index (AddAll m ps)
    = m_Index m
      ++ combine (map (fun it => ToBoost (fst it)) ps)
                 (map (fun i => to_int (Z.of_nat i))
                      (seq (length (m_Index m)) (length ps))).
Proof.
  induction ps as [|it ps IH]; intros m.
  - cbn. rewrite app_nil_r. reflexivity.
  - rewrite AddAll_cons, IH, Add_index, length_app. cbn [length map seq combine].
    rewrite <- app_assoc. cbn [app]. unfold index_size.
    replace (length (m_Index m) + 1)%nat with (S (length (m_Index m))) by lia.
    reflexivity.
Qed.

Lemma map_to_int_seq (n k : nat) :
  (Z.of_nat (n + k) <= 2 ^ 31)%Z ->
  map (fun i => to_int (Z.of_nat i)) (seq n k) = map Z.of_nat (seq n k).
Proof.
  intros H. apply map_ext_in. intros i Hi. apply in_seq in Hi.
  apply to_int_small. lia.
Qed.

(** X1.  Insertion is append-only and numbers the particles in sequence:
    as long as the index holds at most 2^31 entries, a sequence of calls
    of [Add] leaves the entries already present untouched and appends the
    positions in call order, the particle inserted when the index holds
    n entries getting the ID n. *)
Theorem AddAll_appends_dense_ids (m : Model) (ps : list Item) :
  (Z.of_nat (length (m_Index m) + length ps) <= 2 ^ 31)%Z ->
  m_Index (AddAll m ps)
  = m_Index m
    ++ combine (map (fun it => ToBoost (fst it)) ps)
               (map Z.of_nat (seq (length (m_Index m)) (length ps))).
Proof.
  intros H. rewrite AddAll_index, map_to_int_seq by assumption. reflexivity.
Qed.

Lemma AddAll_appends_dense_ids_witness :
  m_Index (AddAll Model0 [(vec 1 0 0, (-1)%Z); (vec 2 0 0, 0%Z)])
  = [((Fin 1, Fin 0, Fin 0), 0%Z); ((Fin 2, Fin 0, Fin 0), 1%Z)].
Proof.
  apply (AddAll_appends_dense_ids Model0 [(vec 1 0 0, (-1)%Z); (vec 2 0 0, 0%Z)]).
  cbn. lia.
Defined.

(** ** Seeding *)

Lemma seed_loop_AddAll (stdin : list Record_) :
  forall m count,
    seed_loop m stdin count
    = (AddAll m (map item_of_record stdin),
       map (fun r => record_of (item_of_record r)) stdin,
       (count + Z.of_nat (length stdin))%Z).
Proof.
  induction stdin as [|r stdin IH]; intros m count.
  - cbn. f_equal. lia.
  - cbn [seed_loop map length]. rewrite AddAll_cons.
    pose proof (Add_record m (mkVector (X r) (Y r) (Z_ r)) (to_int (ParentID r)))
      as Hr.
    change (fst (item_of_record r)) with (mkVector (X r) (Y r) (Z_ r)).
    change (snd (item_of_record r)) with (to_int (ParentID r)).
    destruct (Add m (mkVector (X r) (Y r) (Z_ r)) (to_int (ParentID r)))
      as [m1 o]. cbn [fst snd] in *.
    rewrite IH. subst o. f_equal. lia.
Qed.

Lemma main_seed_nonempty (stdin : list Record_) :
  stdin <> [] ->
  main_seed stdin
  = (AddAll Model0 (map item_of_record stdin),
     map (fun r => record_of (item_of_record r)) stdin).
Proof.
  intros Hne. unfold main_seed. rewrite seed_loop_AddAll.
  destruct (Z.eqb_spec (0 + Z.of_nat (length stdin)) 0) as [E|E]; [|reflexivity].
  destruct stdin; [contradiction | cbn in E; lia].
Qed.

Lemma record_round_trip (r : Record_) :
  (0 <= ParentID r < 2 ^ 32)%Z -> record_of (item_of_record r) = r.
Proof.
  intros H. destruct r as [pid x y z]. unfold record_of, item_of_record.
  cbn [fst snd m_X m_Y m_Z X Y Z_ ParentID] in *.
  rewrite to_uint32_to_int by assumption. reflexivity.
Qed.

Lemma map_fst_combine {A B} (l1 : list A) :
  forall l2 : list B,
    (length l1 <= length l2)%nat -> map fst (combine l1 l2) = l1.
Proof.
  induction l1 as [|a l1 IH]; intros [|b l2] H; cbn in *; try reflexivity;
    try lia.
  rewrite IH by lia. reflexivity.
Qed.

(** X2.  Seed round trip.  When at least one seed record is read (their
    parent IDs being [uint32_t] values), [main] writes back exactly the
    records it read, in order, before the first round; the index then
    holds one entry per record, at the record's coordinates, and no
    particle at the origin is added. *)
Theorem main_seed_round_trip (stdin : list Record_) :
  stdin <> [] ->
  Forall (fun r => (0 <= ParentID r < 2 ^ 32)%Z) stdin ->
  snd (main_seed stdin) = stdin
  /\ map fst (m_Index (fst (main_seed stdin)))
     = map (fun r => (X r, Y r, Z_ r)) stdin
  /\ length (m_Index (fst (main_seed stdin))) = length stdin.
Proof.
  intros Hne Hr. rewrite main_seed_nonempty by assumption. cbn [fst snd].
  assert (Hidx : map fst (m_Index (AddAll Model0 (map item_of_record stdin)))
                 = map (fun r => (X r, Y r, Z_ r)) stdin).
  { rewrite AddAll_index. cbn [Model0 m_Index app length].
    rewrite map_fst_combine by (rewrite !length_map, length_seq; lia).
    rewrite map_map. apply map_ext. intros r. reflexivity. }
  split; [|split].
  - rewrite <- (map_id stdin) at 2. apply map_ext_in. intros r Hin.
    apply record_round_trip. rewrite Forall_forall in Hr. apply Hr. assumption.
  - assumption.
  - apply (f_equal (@length _)) in Hidx. rewrite !length_map in Hidx.
    assumption.
Qed.

Lemma main_seed_round_trip_witness :
  snd (main_seed [mkRecord 4294967295 (Fin 1) (Fin 2) (Fin 3);
                  mkRecord 0 (Fin 2) (Fin 2) (Fin 3)])
  = [mkRecord 4294967295 (Fin 1) (Fin 2) (Fin 3);
     mkRecord 0 (Fin 2) (Fin 2) (Fin 3)].
Proof.
  apply (main_seed_round_trip
           [mkRecord 4294967295 (Fin 1) (Fin 2) (Fin 3);
            mkRecord 0 (Fin 2) (Fin 2) (Fin 3)]).
  - discriminate.
  - repeat constructor; cbn; lia.
Defined.

(** ** The commit phase as a sequence of insertions *)

Lemma accepted_loop_incl (thr : double) (rest : list Item) :
  forall earlier x, In x (accepted_loop thr earlier rest) -> In x rest.
Proof.
  induction rest as [|item rest IH]; intros earlier x H; [contradiction|].
  cbn [accepted_loop] in H. apply in_app_or in H. destruct H as [H|H].
  - destruct (commit_ok thr item earlier); [|contradiction].
    destruct H as [<-|[]]. now left.
  - right. eapply IH; eassumption.
Qed.

Lemma commit_AddAll (m : Model) (its : list Item) :
  commit m its
  = (AddAll m (accepted (threshold m) its),
     map record_of (accepted (threshold m) its)).
Proof. unfold commit, accepted. apply commit_loop_accepted. Qed.

Lemma main_seed_AddAll (stdin : list Record_) :
  exists ps,
    main_seed stdin = (AddAll Model0 ps, map record_of ps)
    /\ ps <> []
    /\ (Forall finite_record stdin -> finite_items ps).
Proof.
  destruct stdin as [|r stdin].
  - exists [(Vector0, (-1)%Z)]. split; [reflexivity|]. split; [discriminate|].
    intros _. repeat constructor.
  - exists (map item_of_record (r :: stdin)). split; [|split].
    + rewrite main_seed_nonempty by discriminate. rewrite map_map. reflexivity.
    + discriminate.
    + unfold finite_items. rewrite !Forall_forall. intros H it Hit.
      apply in_map_iff in Hit. destruct Hit as (r' & <- & Hr').
      apply (H r' Hr').
Qed.

(** ** The bounding radius of the seeded model *)

Lemma radius_covers_seeded : radius_covers seeded_model.
Proof.
  rewrite seeded_model_eq. exists 3, 3.
  split; [reflexivity|]. split; [reflexivity|]. split; [lra|].
  intros e [<-|[]]. exists 0, 0, 0. split; [reflexivity|].
  replace (norm3 0 0 0) with 0 by (symmetry; apply norm3_zero_iff; auto). lra.
Qed.

(** ** The nearest particle *)

Lemma nearest_scan_In (q : BoostPoint) (rest : Index) :
  forall best, In (nearest_scan q best rest) (best :: rest).
Proof.
  induction rest as [|v rest IH]; intros best; cbn [nearest_scan].
  - now left.
  - match goal with
    | |- In (nearest_scan q ?b rest) _ => specialize (IH b)
    end.
    destruct IH as [IH|IH].
    + rewrite <- IH.
      destruct (dlt _ _); [right; now left | now left].
    + right. right. assumption.
Qed.

Lemma Nearest_In (m : Model) (p : Vector) :
  m_Index m <> [] -> In (Nearest m p) (m_Index m).
Proof.
  intros Hne. unfold Nearest, index_query_nearest1.
  destruct (m_Index m) as [|v rest]; [contradiction|].
  cbn [fold_left]. apply nearest_scan_In.
Qed.

(** ** The join decision *)



(** ** The rejection loop *)

Lemma RandomInUnitSphere_loop_short (fuel : nat) (t : Tape) :
  (length t < 3)%nat -> RandomInUnitSphere_loop fuel t = None.
Proof.
  intros H. destruct fuel as [|fuel]; [reflexivity|].
  destruct t as [|u1 [|u2 [|u3 t]]]; cbn in H; try lia; reflexivity.
Qed.

(** The loop consumes three draws a round, and returns the first triple
    that lies inside the unit sphere. *)
Lemma RandomInUnitSphere_loop_consumes (fuel : nat) :
  forall t v t',
    RandomInUnitSphere_loop fuel t = Some (v, t') ->
    exists k u1 u2 u3,
      (length t = 3 * S k + length t')%nat
      /\ skipn (3 * k) t = u1 :: u2 :: u3 :: t'
      /\ v = vec (-1 + (1 - -1) * u1) (-1 + (1 - -1) * u2) (-1 + (1 - -1) * u3)
      /\ sumsq (-1 + (1 - -1) * u1) (-1 + (1 - -1) * u2) (-1 + (1 - -1) * u3) < 1.
Proof.
  induction fuel as [|fuel IH]; intros t v t' H; [discriminate|].
  destruct t as [|u1 [|u2 [|u3 t]]];
    try (rewrite RandomInUnitSphere_loop_short in H by (cbn; lia); discriminate).
  rewrite RandomInUnitSphere_loop_cons in H.
  destruct (Rltb _ 1) eqn:E.
  - injection H as <- <-. apply Rltb_iff in E.
    exists 0%nat, u1, u2, u3. cbn [length skipn Nat.mul].
    repeat split; try assumption; try reflexivity; try lia.
  - destruct (IH t v t' H) as (k & w1 & w2 & w3 & Hlen & Hskip & Hv & Hs).
    exists (S k), w1, w2, w3. cbn [length].
    split; [lia|]. split; [|split; assumption].
    replace (3 * S k)%nat with (S (S (S (3 * k)))) by lia.
    cbn [skipn]. assumption.
Qed.

(** More fuel than draws changes nothing. *)
Lemma RandomInUnitSphere_loop_fuel (f1 : nat) :
  forall f2 t,
    (length t <= f1)%nat -> (length t <= f2)%nat ->
    RandomInUnitSphere_loop f1 t = RandomInUnitSphere_loop f2 t.
Proof.
  induction f1 as [|f1 IH]; intros f2 t H1 H2.
  - destruct t; [|cbn in H1; lia].
    rewrite !RandomInUnitSphere_loop_short by (cbn; lia). reflexivity.
  - destruct f2 as [|f2].
    + destruct t; [|cbn in H2; lia].
      rewrite !RandomInUnitSphere_loop_short by (cbn; lia). reflexivity.
    + destruct t as [|u1 [|u2 [|u3 t]]];
        try (rewrite !RandomInUnitSphere_loop_short by (cbn; lia); reflexivity).
      rewrite !RandomInUnitSphere_loop_cons.
      destruct (Rltb _ 1); [reflexivity|].
      apply IH; cbn [length] in *; lia.
Qed.

(** ** Fuel *)

Lemma WalkStep_nil (m : Model) (p : Vector) : WalkStep m p [] = None.
Proof. unfold WalkStep. destruct (dlt _ _); reflexivity. Qed.

Lemma RandomInUnitSphere_shorter (t : Tape) (v : Vector) (t' : Tape) :
  RandomInUnitSphere t = Some (v, t') -> (length t' < length t)%nat.
Proof.
  intros H. unfold RandomInUnitSphere in H.
  destruct (RandomInUnitSphere_loop_consumes _ _ _ _ H)
    as (k & _ & _ & _ & Hlen & _). lia.
Qed.

(** Every iteration of the loop of [Walk] consumes a draw. *)
Lemma WalkStep_shorter (m : Model) (p : Vector) (t : Tape)
  (o : WalkOutcome) (t' : Tape) :
  WalkStep m p t = Some (o, t') -> (length t' < length t)%nat.
Proof.
  unfold WalkStep. destruct (dlt _ _).
  - intros H. apply bind_inv in H. destruct H as (j & t1 & HJ & H).
    unfold ShouldJoin in HJ. apply bind_inv in HJ.
    destruct HJ as (r & t2 & Hr & HJ). apply Random_inv in Hr.
    destruct Hr as (u & -> & _). unfold ret in HJ. injection HJ as _ <-.
    destruct (negb j); unfold ret in H; injection H as _ <-; cbn; lia.
  - intros H. apply bind_inv in H. destruct H as (v & t1 & Hv & H).
    apply RandomInUnitSphere_shorter in Hv.
    destruct (ShouldReset m _).
    + apply bind_inv in H. destruct H as (p'' & t2 & Hs & H).
      unfold RandomStartingPosition in Hs. apply bind_inv in Hs.
      destruct Hs as (w & t3 & Hw & Hs). apply RandomInUnitSphere_shorter in Hw.
      unfold ret in Hs, H. injection Hs as _ <-. injection H as _ <-. lia.
    + unfold ret in H. injection H as _ <-. assumption.
Qed.

(** More fuel than draws changes nothing: [Walk] has no result only when
    the draws run out. *)
Lemma Walk_loop_fuel (m : Model) (f1 : nat) :
  forall f2 p t,
    (length t <= f1)%nat -> (length t <= f2)%nat ->
    Walk_loop f1 m p t = Walk_loop f2 m p t.
Proof.
  induction f1 as [|f1 IH]; intros f2 p t H1 H2.
  - destruct t; [|cbn in H1; lia].
    destruct f2; [reflexivity|]. cbn [Walk_loop]. unfold bind.
    rewrite WalkStep_nil. reflexivity.
  - destruct f2 as [|f2].
    + destruct t; [|cbn in H2; lia]. cbn [Walk_loop]. unfold bind.
      rewrite WalkStep_nil. reflexivity.
    + cbn [Walk_loop]. unfold bind.
      destruct (WalkStep m p t) as [[o t1]|] eqn:E; [|reflexivity].
      apply WalkStep_shorter in E.
      destruct o; [reflexivity|]. apply IH; lia.
Qed.

(** ** NaN *)

Lemma sum3_NaN (a b c : double) :
  a = NaN \/ b = NaN \/ c = NaN -> dadd (dadd a b) c = NaN.
Proof.
  intros [-> | [-> | ->]].
  - reflexivity.
  - destruct a; reflexivity.
  - destruct (dadd a b); reflexivity.
Qed.

Lemma dadd_NaN_l (b : double) : dadd NaN b = NaN.
Proof. reflexivity. Qed.

Lemma dlt_NaN_l (b : double) : dlt NaN b = false.
Proof. reflexivity. Qed.

Lemma dlt_NaN_r (a : double) : dlt a NaN = false.
Proof. destruct a; reflexivity. Qed.

Lemma Distance_NaN (p q : Vector) : has_NaN p -> Distance p q = NaN.
Proof.
  intros H. unfold Distance. cbv zeta. rewrite sum3_NaN; [reflexivity|].
  destruct H as [H|[H|H]]; rewrite H; unfold dsub; rewrite dadd_NaN_l; auto.
Qed.

Lemma Length_NaN (p : Vector) : has_NaN p -> Length p = NaN.
Proof.
  intros H. unfold Length. rewrite sum3_NaN; [reflexivity|].
  destruct H as [H|[H|H]]; rewrite H; auto.
Qed.

Lemma vadd_NaN (p w : Vector) : has_NaN p -> has_NaN (vadd p w).
Proof.
  unfold has_NaN, vadd. cbn [m_X m_Y m_Z].
  intros [H|[H|H]]; rewrite H; auto.
Qed.

Lemma WalkStep_NaN (m : Model) (p : Vector) (t : Tape) (o : WalkOutcome)
  (t' : Tape) :
  has_NaN p ->
  WalkStep m p t = Some (o, t') ->
  exists p', o = Searching p' /\ has_NaN p'.
Proof.
  intros Hp H. unfold WalkStep in H.
  rewrite (Distance_NaN p _ Hp), dlt_NaN_l in H.
  apply bind_inv in H. destruct H as (v & t1 & _ & H).
  match type of H with
  | (if ShouldReset m ?q then _ else _) _ = _ =>
      assert (Hq : has_NaN q) by (apply vadd_NaN; assumption);
      assert (Hr : ShouldReset m q = false)
        by (unfold ShouldReset, dgt; rewrite (Length_NaN q Hq); apply dlt_NaN_r);
      rewrite Hr in H; unfold ret in H; injection H as <- _;
      exists q; split; [reflexivity | assumption]
  end.
Qed.

(** X13.  NaN is absorbing in the walk.  From a position with a NaN
    coordinate an iteration never joins and never resets: it goes on
    searching from a position that again has a NaN coordinate.  So the
    loop of [Walk] started there returns for no sequence of draws. *)
Theorem Walk_from_NaN_never_returns (m : Model) (p : Vector) :
  has_NaN p ->
  (forall t o t',
      WalkStep m p t = Some (o, t') ->
      exists p', o = Searching p' /\ has_NaN p')
  /\ forall fuel t, Walk_loop fuel m p t = None.
Proof.
  intros Hp. split; [intros t o t'; apply WalkStep_NaN; assumption|].
  intros fuel. revert p Hp.
  induction fuel as [|fuel IH]; intros p Hp t; [reflexivity|].
  cbn [Walk_loop]. unfold bind.
  destruct (WalkStep m p t) as [[o t1]|] eqn:E; [|reflexivity].
  destruct (WalkStep_NaN m p t o t1 Hp E) as (p' & -> & Hp').
  apply IH. assumption.
Qed.

Lemma Walk_from_NaN_never_returns_witness :
  Walk_loop 7 seeded_model (mkVector NaN NaN NaN) tape7 = None.
Proof.
  apply (Walk_from_NaN_never_returns seeded_model (mkVector NaN NaN NaN)).
  left. reflexivity.
Defined.

(** X14.  A particle with a NaN coordinate is inserted like any other
    but never extends the bounding radius: [std::max] keeps its first
    argument when the second is NaN. *)
Theorem Add_NaN_keeps_radius (m : Model) (p : Vector) (parent : Z) :
  has_NaN p ->
  m_BoundingRadius (fst (Add m p parent)) = m_BoundingRadius m
  /\ m_Index (fst (Add m p parent))
     = m_Index m ++ [(ToBoost p, to_int (index_size (m_Index m)))]
  /\ snd (Add m p parent) = record_of (p, parent).
Proof.
  intros Hp. split; [|split; reflexivity].
  rewrite Add_radius, (Length_NaN p Hp), dadd_NaN_l.
  unfold dmax. rewrite dlt_NaN_r. reflexivity.
Qed.

Lemma Add_NaN_keeps_radius_witness :
  m_BoundingRadius (fst (Add seeded_model (mkVector NaN (Fin 100) (Fin 0)) 0%Z))
  = m_BoundingRadius seeded_model.
Proof.
  apply (Add_NaN_keeps_radius seeded_model (mkVector NaN (Fin 100) (Fin 0)) 0%Z).
  left. reflexivity.
Defined.

(** ** What a commit phase changes *)

Lemma AddAll_params (ps : list Item) :
  forall m,
    m_ParticleSpacing (AddAll m ps) = m_ParticleSpacing m
    /\ m_AttractionDistance (AddAll m ps) = m_AttractionDistance m
    /\ m_MinMoveDistance (AddAll m ps) = m_MinMoveDistance m
    /\ m_Stickiness (AddAll m ps) = m_Stickiness m.
Proof.
  induction ps as [|it ps IH]; intros m; [repeat split|].
  rewrite AddAll_cons. destruct (IH (fst (Add m (fst it) (snd it))))
    as (H1 & H2 & H3 & H4).
  rewrite H1, H2, H3, H4. repeat split.
Qed.

Lemma AddAll_index_length (m : Model) (ps : list Item) :
  length (m_Index (AddAll m ps)) = (length (m_Index m) + length ps)%nat.
Proof.
  rewrite (AddAll_index ps m), length_app.
  unfold Index, IndexValue, Item in *.
  rewrite length_combine, !length_map, length_seq. lia.
Qed.

Lemma accepted_loop_length (thr : double) (rest : list Item) :
  forall earlier,
    (length (accepted_loop thr earlier rest) <= length rest)%nat.
Proof.
  induction rest as [|item rest IH]; intros earlier; [cbn; lia|].
  cbn [accepted_loop]. rewrite length_app. specialize (IH (earlier ++ [item])).
  destruct (commit_ok thr item earlier); cbn [length]; lia.
Qed.

(** X15.  A commit phase only inserts.  It leaves the four parameters
    and the entries of the index as they are, appends one index entry per
    record it writes, writes at most one record per candidate, and always
    accepts the first candidate of a batch. *)
Theorem commit_only_inserts (m : Model) (its : list Item) :
  let m' := fst (commit m its) in
  let out := snd (commit m its) in
  m_ParticleSpacing m' = m_ParticleSpacing m
  /\ m_AttractionDistance m' = m_AttractionDistance m
  /\ m_MinMoveDistance m' = m_MinMoveDistance m
  /\ m_Stickiness m' = m_Stickiness m
  /\ (exists added,
         m_Index m' = m_Index m ++ added /\ length added = length out)
  /\ (length out <= length its)%nat
  /\ (forall it rest,
         its = it :: rest -> exists out', out = record_of it :: out').
Proof.
  intros m' out. subst m' out. rewrite commit_AddAll. cbn [fst snd].
  destruct (AddAll_params (accepted (threshold m) its) m) as (H1 & H2 & H3 & H4).
  split; [assumption|]. split; [assumption|]. split; [assumption|].
  split; [assumption|]. split; [|split].
  - exists (skipn (length (m_Index m))
                   (m_Index (AddAll m (accepted (threshold m) its)))).
    pose proof (AddAll_index_length m (accepted (threshold m) its)) as Hl.
    rewrite (AddAll_index (accepted (threshold m) its) m) in *.
    rewrite skipn_app, skipn_all, Nat.sub_diag. cbn [skipn app].
    split; [reflexivity|]. rewrite length_app in Hl. rewrite length_map. lia.
  - rewrite length_map. apply accepted_loop_length.
  - intros it rest ->. unfold accepted. cbn [accepted_loop commit_ok app map].
    eexists. reflexivity.
Qed.

Lemma commit_only_inserts_witness :
  exists out',
    snd (commit seeded_model batch3) = record_of (vec 100 0 0, 0%Z) :: out'.
Proof.
  destruct (commit_only_inserts seeded_model batch3)
    as (_ & _ & _ & _ & _ & _ & H).
  apply (H (vec 100 0 0, 0%Z) [(vec 110 0 0, 0%Z); (vec 120 0 0, 0%Z)]).
  reflexivity.
Defined.

(** ** The search phase *)

Lemma held_items_set_nth (ws : list WorkerPc) :
  forall i pc x,
    In x (held_items (set_nth i pc ws)) ->
    In x (held_items ws) \/ pc = AtLock x.
Proof.
  induction ws as [|w ws IH]; intros [|i] pc x H; cbn [set_nth] in H;
    try contradiction.
  - cbn [held_items flat_map] in *. apply in_app_or in H. destruct H as [H|H].
    + right. destruct pc; cbn in H; try contradiction.
      destruct H as [<-|[]]. reflexivity.
    + left. apply in_or_app. now right.
  - cbn [held_items flat_map] in *. apply in_app_or in H. destruct H as [H|H].
    + left. apply in_or_app. now left.
    + destruct (IH i pc x H) as [H'|H']; [|now right].
      left. apply in_or_app. now right.
Qed.

Lemma held_items_nth (ws : list WorkerPc) :
  forall i it, nth_error ws i = Some (AtLock it) -> In it (held_items ws).
Proof.
  induction ws as [|w ws IH]; intros [|i] it H; cbn in H; try discriminate.
  - injection H as ->. cbn. now left.
  - cbn [held_items flat_map]. apply in_or_app. right. eapply IH. eassumption.
Qed.

Lemma held_items_repeat_AtWalk (n : nat) : held_items (repeat AtWalk n) = [].
Proof. induction n as [|n IH]; [reflexivity | exact IH]. Qed.

(** Every item in the batch, or held by a worker, is a result of [Walk]
    on the frozen model; the batch only grows at its end. *)
Lemma search_steps_walk_results (m : Model) (batchSize : Z) (s0 s : SearchState) :
  search_steps m batchSize s0 s ->
  (forall x, In x (items s0 ++ held_items (workers s0)) -> walk_result m x) ->
  (forall x, In x (items s ++ held_items (workers s)) -> walk_result m x)
  /\ exists more, items s = items s0 ++ more.
Proof.
  induction 1 as [s|s1 s2 s3 _ IH Hstep]; intros H0.
  - split; [assumption|]. exists []. rewrite app_nil_r. reflexivity.
  - destruct (IH H0) as [Hall [more Hmore]].
    destruct Hstep as [its ws i pc its' pc' Hnth Hw]. cbn [items workers] in *.
    destruct Hw as [its item t t' HW | its item].
    + split; [|exists more; assumption].
      intros x Hx. apply in_app_or in Hx. destruct Hx as [Hx|Hx].
      * apply Hall. apply in_or_app. now left.
      * apply held_items_set_nth in Hx. destruct Hx as [Hx|Hx].
        -- apply Hall. apply in_or_app. now right.
        -- injection Hx as <-. exists t, t'. assumption.
    + split.
      * intros x Hx. apply in_app_or in Hx. destruct Hx as [Hx|Hx].
        -- apply in_app_or in Hx. destruct Hx as [Hx|[<-|[]]].
           ++ apply Hall. apply in_or_app. now left.
           ++ apply Hall. apply in_or_app. right.
              eapply held_items_nth. eassumption.
        -- apply held_items_set_nth in Hx. destruct Hx as [Hx|Hx].
           ++ apply Hall. apply in_or_app. now right.
           ++ destruct (batch_done batchSize (its ++ [item])); discriminate.
      * exists (more ++ [item]). rewrite Hmore, app_assoc. reflexivity.
Qed.

Lemma search_init_walk_results (m : Model) (batchSize numThreads : Z)
  (s : SearchState) :
  search_steps m batchSize (search_init numThreads) s ->
  forall x, In x (items s) -> walk_result m x.
Proof.
  intros Hs x Hx.
  destruct (search_steps_walk_results m batchSize _ _ Hs) as [Hall _].
  - unfold search_init. cbn [items workers app].
    rewrite held_items_repeat_AtWalk. intros y [].
  - apply Hall. apply in_or_app. now left.
Qed.


Lemma schedule2_items :
  Forall (fun e => exists t t', Walk seeded_model t = Some (snd e, t')) schedule2.
Proof.
  repeat constructor; exists tape7, []; apply Walk_seeded.
Qed.

Lemma round_of_two_runs :
  exists s,
    search_steps seeded_model 0 (search_init 2) s
    /\ all_at_barrier2 s
    /\ items s = [item7; item7].
Proof.
  assert (E : run_schedule 0 (search_init 2) schedule2
              = Some (mkSearch [item7; item7] [AtBarrier2; AtBarrier2]))
    by (lazy; reflexivity).
  eexists. split; [|split].
  - eapply run_schedule_steps; [apply schedule2_items|apply search_refl|exact E].
  - repeat constructor.
  - reflexivity.
Qed.


(** ** The batch size as an [int] *)

(** X17.  The size of the batch for any [int] batch size.  With at least
    one worker, when every worker has reached the second barrier the
    batch holds max (b, 1) + numThreads - 1 items, b being the batch size
    converted to [size_t].  So a batch size of 0 gives one item per
    worker, and with a negative batch size, which converts to
    2^64 + batchSize, the round does not end before the batch holds that
    many items. *)
Theorem batch_size_for_any_int
  (m : Model) (numThreads batchSize : Z) (s : SearchState) :
  (0 < numThreads)%Z ->
  (- 2 ^ 31 <= batchSize < 2 ^ 31)%Z ->
  search_steps m batchSize (search_init numThreads) s ->
  all_at_barrier2 s ->
  (Z.of_nat (length (items s))
   = Z.max (to_size_t batchSize) 1 + numThreads - 1)%Z
  /\ (batchSize = 0 -> Z.of_nat (length (items s)) = numThreads)%Z
  /\ (batchSize < 0 -> 2 ^ 64 + batchSize <= Z.of_nat (length (items s)))%Z.
Proof.
  intros Hn Hb Hsteps Hall.
  destruct (round_inv_steps m batchSize numThreads s Hsteps) as [Hlen Hinv].
  cbv zeta in Hinv. rewrite Z2Nat.id in Hinv by lia.
  apply pending_all_at_barrier2 in Hall. rewrite Hall in Hinv.
  assert (E : (Z.of_nat (length (items s))
               = Z.max (to_size_t batchSize) 1 + numThreads - 1)%Z).
  { destruct Hinv as [[H1 H2]|[H1 H2]]; lia. }
  split; [assumption|]. split.
  - intros ->. rewrite E. unfold to_size_t. rewrite Z.mod_0_l by lia. lia.
  - intros Hneg. rewrite E. unfold to_size_t.
    replace (batchSize mod 2 ^ 64)%Z with (2 ^ 64 + batchSize)%Z.
    + lia.
    + apply Z.mod_unique with (q := (-1)%Z); lia.
Qed.

Lemma batch_size_for_any_int_witness :
  exists s,
    search_steps seeded_model 0 (search_init 2) s
    /\ all_at_barrier2 s
    /\ Z.of_nat (length (items s)) = 2%Z.
Proof.
  destruct round_of_two_runs as (s & Hs & Hall & _).
  exists s. split; [assumption|]. split; [assumption|].
  apply (batch_size_for_any_int seeded_model 2 0 s); try assumption; lia.
Defined.

(** ** The output stream and the index *)

Lemma seq_app_from (n a b : nat) :
  seq n (a + b) = seq n a ++ seq (n + a) b.
Proof. apply seq_app. Qed.

(** Lists of equal length zip piecewise. *)
Lemma zip_pieces {A B} (xs : list A) :
  forall (ys : list B) (xs' : list A) (ys' : list B),
    length ys = length xs ->
    combine xs ys ++ combine xs' ys' = combine (xs ++ xs') (ys ++ ys').
Proof.
  induction xs as [|x xs IH]; intros [|y ys] xs' ys' Hlen; cbn in Hlen;
    try lia; [reflexivity|].
  cbn [app combine]. rewrite IH by lia. reflexivity.
Qed.

Lemma index_mirrors_AddAll (m : Model) (out : list Record_) (ps : list Item) :
  index_mirrors_output m out ->
  (Z.of_nat (length out + length ps) <= 2 ^ 31)%Z ->
  index_mirrors_output (AddAll m ps) (out ++ map record_of ps).
Proof.
  unfold index_mirrors_output. intros Hm Hlen.
  assert (Hl : length (m_Index m) = length out).
  { rewrite Hm. unfold Index, IndexValue in *.
    rewrite length_combine, !length_map, length_seq. lia. }
  rewrite (AddAll_index ps m), Hl, map_to_int_seq by assumption.
  rewrite Hm at 1. rewrite length_app, length_map, seq_app_from, !map_app.
  rewrite <- zip_pieces by (rewrite !length_map, length_seq; reflexivity).
  rewrite map_map. cbn [Nat.add]. reflexivity.
Qed.

Lemma index_mirrors_Model0 : index_mirrors_output Model0 [].
Proof. reflexivity. Qed.

Lemma index_mirrors_nonempty (m : Model) (out : list Record_) :
  index_mirrors_output m out -> out <> [] -> m_Index m <> [].
Proof.
  unfold index_mirrors_output. intros -> Hne. destruct out; [contradiction|].
  discriminate.
Qed.

Lemma index_mirrors_ids (m : Model) (out : list Record_) (q : BoostPoint) (id : Z) :
  index_mirrors_output m out ->
  In (q, id) (m_Index m) ->
  (0 <= id < Z.of_nat (length out))%Z.
Proof.
  unfold index_mirrors_output. intros -> H.
  apply in_combine_r in H. apply in_map_iff in H.
  destruct H as (i & <- & Hi). apply in_seq in Hi. lia.
Qed.

(** The parent a result of [Walk] reports is the ID of an index entry. *)
Lemma walk_result_parent (m : Model) (it : Item) :
  m_Index m <> [] ->
  walk_result m it ->
  exists q, In (q, snd it) (m_Index m).
Proof.
  intros Hne (t & t' & HW). destruct it as [pos id]. cbn [snd].
  apply Walk_inv in HW. destruct HW as (p & E). injection E as _ Eid.
  exists (fst (Nearest m p)). rewrite Eid, <- surjective_pairing.
  apply Nearest_In. assumption.
Qed.

(** The invariant of the program, at the start of every round. *)
Lemma program_state_invariant (numThreads batchSize : Z) (k : nat)
  (m : Model) (out : list Record_) :
  program_state numThreads batchSize k m out ->
  (Z.of_nat (length out) <= 2 ^ 31)%Z ->
  index_mirrors_output m out
  /\ out <> []
  /\ (k <= length out)%nat
  /\ forall j, (k <= j < length out)%nat ->
       (0 <= ParentID (nth j out (mkRecord 0 NaN NaN NaN)) < Z.of_nat j)%Z.
Proof.
  induction 1 as [stdin | k m out s Hprog IH Hsteps Hall]; intros Hlen.
  - destruct (main_seed_AddAll stdin) as (ps & E & Hne & _).
    rewrite E in *. cbn [fst snd] in *. rewrite length_map in Hlen.
    split; [|split; [|split]].
    + apply (index_mirrors_AddAll Model0 [] ps index_mirrors_Model0).
      cbn [length Nat.add]. assumption.
    + destruct ps; [contradiction | discriminate].
    + lia.
    + intros j Hj. lia.
  - rewrite commit_AddAll in *. cbn [fst snd] in *.
    rewrite length_app, length_map in Hlen.
    destruct IH as (Hmir & Hne & Hk & Hpar); [lia|].
    set (acc := accepted (threshold m) (items s)) in *.
    split; [|split; [|split]].
    + apply index_mirrors_AddAll; [assumption | exact Hlen].
    + destruct out; [contradiction | discriminate].
    + rewrite length_app. lia.
    + intros j Hj. rewrite length_app, length_map in Hj.
      destruct (Nat.lt_ge_cases j (length out)) as [Hlt|Hge].
      * rewrite app_nth1 by assumption. apply Hpar. lia.
      * rewrite app_nth2 by assumption.
        assert (Hin : In (nth (j - length out) (map record_of acc)
                              (mkRecord 0 NaN NaN NaN))
                         (map record_of acc))
          by (apply nth_In; rewrite length_map; lia).
        apply in_map_iff in Hin. destruct Hin as (it & <- & Hit).
        assert (HW : walk_result m it).
        { apply (search_init_walk_results m batchSize numThreads s Hsteps).
          unfold acc, accepted in Hit. eapply accepted_loop_incl. exact Hit. }
        destruct (walk_result_parent m it
                    (index_mirrors_nonempty m out Hmir Hne) HW) as (q & Hq).
        pose proof (index_mirrors_ids m out q (snd it) Hmir Hq) as Hid.
        unfold record_of. cbn [ParentID]. unfold to_uint32.
        rewrite Z.mod_small by lia. lia.
Qed.

(** X20.  Parents come first in the output.  As long as at most 2^31
    records have been written, every record written by a round (any
    record after the k written during seeding) carries as parent ID the
    position, in the output, of a record written before it. *)
Theorem output_parents_precede (numThreads batchSize : Z) (k : nat)
  (m : Model) (out : list Record_) :
  program_state numThreads batchSize k m out ->
  (Z.of_nat (length out) <= 2 ^ 31)%Z ->
  forall j, (k <= j < length out)%nat ->
    (0 <= ParentID (nth j out (mkRecord 0 NaN NaN NaN)) < Z.of_nat j)%Z.
Proof.
  intros Hp Hlen.
  destruct (program_state_invariant _ _ _ _ _ Hp Hlen) as (_ & _ & _ & Hpar).
  exact Hpar.
Qed.

(** The program after seeding without records and one round of two
    workers with a batch size of 0. *)
Lemma program_after_one_round :
  exists s,
    items s = [item7; item7]
    /\ program_state 2 0 1 (fst (commit seeded_model (items s)))
         (snd (main_seed []) ++ snd (commit seeded_model (items s)))
    /\ snd (main_seed []) ++ snd (commit seeded_model (items s))
       = [mkRecord 4294967295 (Fin 0) (Fin 0) (Fin 0);
          mkRecord 0 (Fin (-1)) (Fin 0) (Fin 0)].
Proof.
  destruct round_of_two_runs as (s & Hs & Hall & Hits).
  exists s. split; [assumption|]. split.
  - apply (after_round 2 0 1 seeded_model (snd (main_seed [])) s);
      [|assumption|assumption].
    apply (after_seeding 2 0 []).
  - rewrite Hits, main_seed_nil. cbn [snd app].
    rewrite commit_AddAll. cbn [snd]. rewrite threshold_seeded.
    unfold accepted, item7. cbn [accepted_loop commit_ok app fst].
    rewrite DistanceSquared_vec. unfold sumsq. cbn [dlt]. rcompare.
    reflexivity.
Qed.

Lemma output_parents_precede_witness :
  exists out,
    length out = 2%nat
    /\ (0 <= ParentID (nth 1 out (mkRecord 0 NaN NaN NaN)) < Z.of_nat 1)%Z.
Proof.
  destruct program_after_one_round as (s & _ & Hp & Hout).
  exists (snd (main_seed []) ++ snd (commit seeded_model (items s))).
  split; [rewrite Hout; reflexivity|].
  apply (output_parents_precede 2 0 1 _ _ Hp).
  - rewrite Hout. cbn. lia.
  - rewrite Hout. cbn. lia.
Defined.

(** ** The setters *)

(** X8.  The setters never touch the index or the bounding radius.  So
    raising the attraction distance above the bounding radius, once a
    particle is in the index, leaves a radius that no longer covers the
    particles plus the attraction distance; the radius is extended again
    only by a later call of [Add]. *)
Theorem SetAttractionDistance_stale_radius (m : Model) (r a' : R) :
  m_BoundingRadius m = Fin r ->
  m_Index m <> [] ->
  r < a' ->
  m_BoundingRadius (SetAttractionDistance m (Fin a')) = Fin r
  /\ m_Index (SetAttractionDistance m (Fin a')) = m_Index m
  /\ ~ radius_covers (SetAttractionDistance m (Fin a')).
Proof.
  intros Hr Hne Hlt. split; [exact Hr|]. split; [reflexivity|].
  intros (r0 & a0 & Hr0 & Ha0 & _ & Hcov).
  cbn [SetAttractionDistance m_BoundingRadius m_AttractionDistance m_Index] in *.
  rewrite Hr in Hr0. injection Hr0 as <-. injection Ha0 as <-.
  destruct (m_Index m) as [|e idx]; [contradiction|].
  destruct (Hcov e (or_introl eq_refl)) as (x & y & z & _ & Hle).
  pose proof (norm3_nonneg x y z). lra.
Qed.

Lemma SetAttractionDistance_stale_radius_witness :
  radius_covers seeded_model
  /\ ~ radius_covers (SetAttractionDistance seeded_model (Fin 10)).
Proof.
  split; [apply radius_covers_seeded|].
  apply (SetAttractionDistance_stale_radius seeded_model 3 10).
  - rewrite seeded_model_eq. reflexivity.
  - rewrite seeded_model_eq. discriminate.
  - lra.
Defined.

(** * The code on binary64 *)

Module B64Facts.

Import Floats.PrimFloat Floats.SpecFloat Floats.FloatOps Floats.FloatAxioms.
Import B64.
Local Open Scope float_scope.

(** ** Special values *)

Lemma is_finite_SF (x : float) :
  is_finite x
  = match Prim2SF x with
    | S754_zero _ | S754_finite _ _ _ => true
    | _ => false
    end.
Proof.
  unfold is_finite, is_nan, is_infinity.
  rewrite !eqb_spec, abs_spec.
  change (Prim2SF infinity) with (S754_infinity false).
  destruct (Prim2SF x) as [s|s| |s m e]; try reflexivity.
  - destruct s; reflexivity.
  - destruct s; cbn; rewrite Z.compare_refl, ?Pos.compare_cont_refl;
      cbn; rewrite ?Pos.compare_cont_refl; reflexivity.
Qed.

Lemma is_zero_SF (x : float) :
  is_zero x = true -> exists s, Prim2SF x = S754_zero s.
Proof.
  unfold is_zero. rewrite eqb_spec.
  change (Prim2SF zero) with (S754_zero false).
  destruct (Prim2SF x) as [s|s| |s m e]; try discriminate.
  - intros _. exists s. reflexivity.
  - destruct s; discriminate.
  - destruct s; discriminate.
Qed.

Lemma mul_nan_l (x : float) : nan * x = nan.
Proof. apply Prim2SF_inj. rewrite mul_spec. reflexivity. Qed.

Lemma add_nan_r (x : float) : x + nan = nan.
Proof.
  apply Prim2SF_inj. rewrite add_spec.
  change (Prim2SF nan) with S754_nan.
  destruct (Prim2SF x); reflexivity.
Qed.

(** A product with a factor that is not finite is not finite. *)
Lemma mul_not_finite_l (x y : float) :
  is_finite x = false -> is_finite (x * y) = false.
Proof.
  rewrite !is_finite_SF, mul_spec.
  destruct (Prim2SF x) as [s|s| |s m e]; try discriminate; intros _;
    destruct (Prim2SF y); reflexivity.
Qed.

Lemma mul_not_finite_r (x y : float) :
  is_finite y = false -> is_finite (x * y) = false.
Proof.
  rewrite !is_finite_SF, mul_spec.
  destruct (Prim2SF y) as [s|s| |s m e]; try discriminate; intros _;
    destruct (Prim2SF x); reflexivity.
Qed.

(** A sum with a term that is not finite is not finite. *)
Lemma add_not_finite_r (x y : float) :
  is_finite y = false -> is_finite (x + y) = false.
Proof.
  rewrite !is_finite_SF, add_spec.
  destruct (Prim2SF y) as [s|s| |s m e]; try discriminate; intros _;
    destruct (Prim2SF x) as [s'|s'| |s' m' e']; try reflexivity;
    destruct s, s'; reflexivity.
Qed.

(** 1 divided by a zero is an infinity. *)
Lemma div_one_zero (y : float) :
  is_zero y = true -> is_finite (1 / y) = false.
Proof.
  intros H. destruct (is_zero_SF y H) as [s Hs].
  rewrite is_finite_SF, div_spec, Hs.
  change (Prim2SF 1) with (S754_finite false 4503599627370496 (-52)).
  reflexivity.
Qed.

(** A finite number minus itself is +0. *)
Lemma sub_diag_finite (x : float) : is_finite x = true -> x - x = 0.
Proof.
  rewrite is_finite_SF. intros H. apply Prim2SF_inj. rewrite sub_spec.
  change (Prim2SF 0) with (S754_zero false).
  destruct (Prim2SF x) as [s|s| |s m e]; try discriminate.
  - destruct s; reflexivity.
  - unfold SF64sub, SFsub. rewrite Z.sub_diag. reflexivity.
Qed.

Lemma tiny_not_zero : mkVector 0x1p-600 0 0 <> Vector0.
Proof.
  intros H.
  assert (E : is_zero (m_X (mkVector 0x1p-600 0 0)) = is_zero (m_X Vector0))
    by (rewrite H; reflexivity).
  vm_compute in E. discriminate E.
Qed.

(** ** [Normalized] and [Lerp] *)


Lemma Lerp_formula (a b : Vector) (d : float) :
  Lerp a b d = vadd a (vscale (vscale (vsub b a) (1 / Length (vsub b a))) d).
Proof. reflexivity. Qed.

(** When the computed length of [b - a] is zero, [1 / Length()] is an
    infinity and no coordinate of [Lerp a b d] is finite. *)
Lemma Lerp_zero_length (a b : Vector) (d : float) :
  is_zero (Length (vsub b a)) = true -> nowhere_finite (Lerp a b d).
Proof.
  intros H. apply div_one_zero in H.
  rewrite Lerp_formula. unfold nowhere_finite, vadd, vscale.
  cbv beta iota delta [m_X m_Y m_Z].
  repeat split; apply add_not_finite_r, mul_not_finite_l, mul_not_finite_r;
    exact H.
Qed.

Lemma vsub_same (a : Vector) : finite_vector a -> vsub a a = Vector0.
Proof.
  destruct a as [x y z]. intros (Hx & Hy & Hz).
  cbv beta iota delta [m_X m_Y m_Z] in Hx, Hy, Hz.
  unfold vsub. cbv beta iota delta [m_X m_Y m_Z].
  rewrite (sub_diag_finite x Hx), (sub_diag_finite y Hy), (sub_diag_finite z Hz).
  reflexivity.
Qed.

Lemma Lerp_same (a : Vector) (d : float) :
  finite_vector a -> Lerp a a d = mkVector nan nan nan.
Proof.
  intros Ha. unfold Lerp. rewrite (vsub_same a Ha).
  change (Normalized Vector0) with (mkVector nan nan nan).
  unfold vadd, vscale. cbv beta iota delta [m_X m_Y m_Z].
  rewrite !mul_nan_l, !add_nan_r. reflexivity.
Qed.

Lemma Distance_same (a : Vector) : finite_vector a -> Distance a a = 0.
Proof.
  destruct a as [x y z]. intros (Hx & Hy & Hz).
  cbv beta iota delta [m_X m_Y m_Z] in Hx, Hy, Hz.
  unfold Distance. cbv beta iota zeta delta [m_X m_Y m_Z].
  rewrite (sub_diag_finite x Hx), (sub_diag_finite y Hy), (sub_diag_finite z Hz).
  reflexivity.
Qed.

(** ** The draws *)

Lemma bind_returns {A B} (c : Rand A) (k : A -> Rand B) (t : Tape)
  (r : B * Tape) :
  bind c k t = Some r -> exists a t1, c t = Some (a, t1) /\ k a t1 = Some r.
Proof.
  unfold bind. destruct (c t) as [[a t1]|]; [|discriminate].
  intros H. exists a, t1. split; [reflexivity | exact H].
Qed.

Lemma Random_draw (lo hi : float) (t : Tape) (x : float) (t1 : Tape) :
  Random lo hi t = Some (x, t1) ->
  exists u, t = u :: t1 /\ x = u * (hi - lo) + lo.
Proof.
  destruct t as [|u t]; [discriminate|]. cbn [Random].
  intros H. injection H as <- <-. exists u. split; reflexivity.
Qed.

Lemma ShouldJoin_draw (m : Model) (p : Vector) (parent : IndexValue)
  (u : float) (t : Tape) :
  ShouldJoin m p parent (u :: t) = Some (u * (1 - 0) + 0 <=? m_Stickiness m, t).
Proof. reflexivity. Qed.

Lemma RandomInUnitSphere_loop_triple (fuel : nat) (u1 u2 u3 : float) (t : Tape) :
  RandomInUnitSphere_loop (S fuel) (u1 :: u2 :: u3 :: t)
  = if LengthSquared (cube_point u1 u2 u3) <? 1
    then Some (cube_point u1 u2 u3, t)
    else RandomInUnitSphere_loop fuel t.
Proof.
  change (RandomInUnitSphere_loop (S fuel) (u1 :: u2 :: u3 :: t))
    with ((if LengthSquared (cube_point u1 u2 u3) <? 1
           then ret (cube_point u1 u2 u3)
           else RandomInUnitSphere_loop fuel) t).
  destruct (LengthSquared (cube_point u1 u2 u3) <? 1); reflexivity.
Qed.

Lemma RandomInUnitSphere_loop_draws (fuel : nat) :
  forall t p t',
    RandomInUnitSphere_loop fuel t = Some (p, t') -> sphere_draws t p t'.
Proof.
  induction fuel as [|fuel IH]; intros t p t' H; [discriminate|].
  destruct t as [|u1 [|u2 [|u3 t]]]; try discriminate.
  rewrite RandomInUnitSphere_loop_triple in H.
  destruct (LengthSquared (cube_point u1 u2 u3) <? 1) eqn:E.
  - injection H as <- <-. apply sphere_accept. exact E.
  - apply sphere_reject; [exact E | apply IH; exact H].
Qed.

Lemma sphere_draws_loop (t : Tape) (p : Vector) (t' : Tape) :
  sphere_draws t p t' ->
  forall fuel, (length t <= fuel)%nat ->
    RandomInUnitSphere_loop fuel t = Some (p, t').
Proof.
  induction 1 as [u1 u2 u3 t E|u1 u2 u3 t p t' E _ IH]; intros fuel Hf;
    (destruct fuel as [|fuel]; [cbn [length] in Hf; lia|]);
    rewrite RandomInUnitSphere_loop_triple, E.
  - reflexivity.
  - apply IH. cbn [length] in Hf. lia.
Qed.

Lemma sphere_draws_inside (t : Tape) (p : Vector) (t' : Tape) :
  sphere_draws t p t' -> (LengthSquared p <? 1) = true.
Proof. induction 1; assumption. Qed.

Lemma sphere_draws_length (t : Tape) (p : Vector) (t' : Tape) :
  sphere_draws t p t' ->
  exists k : nat, length t = (3 * (k + 1) + length t')%nat.
Proof.
  induction 1 as [u1 u2 u3 t E|u1 u2 u3 t p t' E _ [k IH]].
  - exists 0%nat. cbn [length]. lia.
  - exists (S k). cbn [length]. lia.
Qed.

(** ** The walk *)

Lemma Nearest_scan_In (q : BoostPoint) (rest : Index) :
  forall best, In (nearest_scan q best rest) (best :: rest).
Proof.
  induction rest as [|v rest IH]; intros best; cbn [nearest_scan].
  - left. reflexivity.
  - destruct (IH (if comparable_distance q (fst v) <? comparable_distance q (fst best)
                  then v else best)) as [H|H].
    + destruct (comparable_distance q (fst v) <? comparable_distance q (fst best)).
      * right. left. exact H.
      * left. exact H.
    + right. right. exact H.
Qed.

Lemma Nearest_entry (m : Model) (p : Vector) :
  m_Index m <> [] -> In (Nearest m p) (m_Index m).
Proof.
  unfold Nearest. destruct (m_Index m) as [|v rest]; [congruence|].
  intros _. cbn [index_query_nearest1 fold_left]. apply Nearest_scan_In.
Qed.

Lemma WalkStep_near (m : Model) (p : Vector) (t : Tape) :
  (Distance p (VectorOfBoost (fst (Nearest m p))) <? m_AttractionDistance m)
  = true ->
  WalkStep m p t
  = bind (ShouldJoin m p (Nearest m p)) (fun join =>
      if negb join then
        ret (Searching
               (Lerp (VectorOfBoost (fst (Nearest m p))) p
                     (m_AttractionDistance m + m_MinMoveDistance m)))
      else
        ret (Joining (PlaceParticle m p (VectorOfBoost (fst (Nearest m p))),
                      snd (Nearest m p)))) t.
Proof. intros H. unfold WalkStep. cbv zeta. rewrite H. reflexivity. Qed.

Lemma WalkStep_far (m : Model) (p : Vector) (t : Tape) :
  (Distance p (VectorOfBoost (fst (Nearest m p))) <? m_AttractionDistance m)
  = false ->
  WalkStep m p t
  = bind (MotionVector m p) (fun v =>
      if ShouldReset m
           (vadd p (vscale (Normalized v)
              (dmax (m_MinMoveDistance m)
                 (Distance p (VectorOfBoost (fst (Nearest m p)))
                  - m_AttractionDistance m))))
      then bind (RandomStartingPosition m) (fun p2 => ret (Searching p2))
      else ret (Searching
             (vadd p (vscale (Normalized v)
                (dmax (m_MinMoveDistance m)
                   (Distance p (VectorOfBoost (fst (Nearest m p)))
                    - m_AttractionDistance m)))))) t.
Proof. intros H. unfold WalkStep. cbv zeta. rewrite H. reflexivity. Qed.


Lemma WalkStep_joins (m : Model) (p : Vector) (t t' : Tape)
  (res : Vector * Z) :
  WalkStep m p t = Some (Joining res, t') ->
  (Distance p (VectorOfBoost (fst (Nearest m p))) <? m_AttractionDistance m)
  = true
  /\ res = (PlaceParticle m p (VectorOfBoost (fst (Nearest m p))),
            snd (Nearest m p)).
Proof.
  destruct (Distance p (VectorOfBoost (fst (Nearest m p)))
            <? m_AttractionDistance m) eqn:E.
  - rewrite (WalkStep_near m p t E). intros H.
    apply bind_returns in H. destruct H as (join & t1 & _ & H).
    destruct join; cbn [negb] in H; unfold ret in H.
    + split; [reflexivity | congruence].
    + discriminate H.
  - rewrite (WalkStep_far m p t E). intros H.
    apply bind_returns in H. destruct H as (v & t1 & _ & H).
    destruct (ShouldReset m _).
    + apply bind_returns in H. destruct H as (p2 & t2 & _ & H).
      unfold ret in H. discriminate H.
    + unfold ret in H. discriminate H.
Qed.

Lemma Walk_loop_joins (fuel : nat) (m : Model) :
  forall p t res t',
    Walk_loop fuel m p t = Some (res, t') ->
    exists q t0, WalkStep m q t0 = Some (Joining res, t').
Proof.
  induction fuel as [|fuel IH]; intros p t res t' H; [discriminate|].
  cbn [Walk_loop] in H. apply bind_returns in H.
  destruct H as (o & t1 & Hs & H). destruct o as [result|p1].
  - unfold ret in H. injection H as <- <-. exists p, t. exact Hs.
  - apply (IH p1 t1). exact H.
Qed.

Lemma Walk_joins (m : Model) (t : Tape) (res : Vector * Z) (t' : Tape) :
  Walk m t = Some (res, t') ->
  exists q,
    (Distance q (VectorOfBoost (fst (Nearest m q))) <? m_AttractionDistance m)
    = true
    /\ res = (PlaceParticle m q (VectorOfBoost (fst (Nearest m q))),
              snd (Nearest m q)).
Proof.
  unfold Walk. intros H. apply bind_returns in H.
  destruct H as (p0 & t1 & _ & H).
  apply Walk_loop_joins in H. destruct H as (q & t0 & H).
  exists q. apply (WalkStep_joins m q t0 t'). exact H.
Qed.

(** ** Placement *)




(** ** The push after a rejected join *)




(** ** The random move and the reset *)

Lemma RandomInUnitSphere_draws_inv (t : Tape) (v : Vector) (t1 : Tape) :
  RandomInUnitSphere t = Some (v, t1) -> sphere_draws t v t1.
Proof. apply RandomInUnitSphere_loop_draws. Qed.








(** ** Division by a zero length *)

(** C9, counterexample.  The points (0, 0, 0) and (2^-600, 0, 0) are
    distinct, yet the computed length of their difference is 0 (the
    square underflows), and [Lerp] between them is (inf, NaN, NaN); so is
    the position that a walker at (2^-600, 0, 0) joins at on the model of
    [main] with no seed record.  The points (0, 0, 0) and (2^600, 0, 0) are
    distinct as well; the computed length of their difference is inf,
    and [Lerp] from the first towards the second by 1 is the first. *)
Lemma Lerp_distinct_not_finite :
  mkVector 0x1p-600 0 0 <> Vector0
  /\ Length (vsub (mkVector 0x1p-600 0 0) Vector0) = 0
  /\ Lerp Vector0 (mkVector 0x1p-600 0 0) 1 = mkVector infinity nan nan
  /\ VectorOfBoost (fst (Nearest seeded_model (mkVector 0x1p-600 0 0)))
     = Vector0
  /\ WalkStep seeded_model (mkVector 0x1p-600 0 0) [0.5]
     = Some (Joining (mkVector infinity nan nan, 0%Z), [])
  /\ Length (vsub (mkVector 0x1p600 0 0) Vector0) = infinity
  /\ Lerp Vector0 (mkVector 0x1p600 0 0) 1 = Vector0.
Proof.
  split; [exact tiny_not_zero|].
  repeat split; vm_compute; reflexivity.
Qed.

(** C9, as amended.  [Lerp], and with it [PlaceParticle] and the push
    inside [Walk], is well-defined only when the computed length of the
    difference of its end points is not zero: [Normalized] divides by
    that length with no guard, so when it is zero, no coordinate of the
    result is finite.  The length is zero when the end points coincide
    (with finite coordinates), and then every coordinate is NaN; distinct
    end points do not exclude it.  A walker that stands on the particle
    [Nearest] returns, with a positive attraction distance, draws once
    and either joins at (NaN, NaN, NaN) or is pushed to (NaN, NaN, NaN). *)
Theorem Lerp_zero_length_not_finite :
  (forall a b d,
      is_zero (Length (vsub b a)) = true -> nowhere_finite (Lerp a b d))
  /\ (forall a d,
         finite_vector a ->
         is_zero (Length (vsub a a)) = true
         /\ Lerp a a d = mkVector nan nan nan)
  /\ (forall m p u t,
         finite_vector p ->
         VectorOfBoost (fst (Nearest m p)) = p ->
         (0 <? m_AttractionDistance m) = true ->
         WalkStep m p (u :: t)
         = Some (if u * (1 - 0) + 0 <=? m_Stickiness m
                 then Joining (mkVector nan nan nan, snd (Nearest m p))
                 else Searching (mkVector nan nan nan), t)).
Proof.
  split; [exact Lerp_zero_length|]. split.
  - intros a d Ha. split.
    + rewrite (vsub_same a Ha). reflexivity.
    + apply Lerp_same. exact Ha.
  - intros m p u t Hp HP Ha.
    assert (Hd : (Distance p (VectorOfBoost (fst (Nearest m p)))
                  <? m_AttractionDistance m) = true).
    { rewrite HP, (Distance_same p Hp). exact Ha. }
    rewrite (WalkStep_near m p (u :: t) Hd). unfold bind.
    rewrite ShouldJoin_draw, HP. unfold PlaceParticle.
    rewrite !(Lerp_same p _ Hp).
    destruct (u * (1 - 0) + 0 <=? m_Stickiness m); reflexivity.
Qed.

Lemma Lerp_zero_length_not_finite_witness :
  nowhere_finite (Lerp Vector0 (mkVector 0x1p-600 0 0) 1)
  /\ Lerp (mkVector 1 2 3) (mkVector 1 2 3) 1 = mkVector nan nan nan
  /\ WalkStep seeded_model Vector0 [0.5]
     = Some (Joining (mkVector nan nan nan, 0%Z), [])
  /\ WalkStep (SetStickiness seeded_model 0) Vector0 [0.5]
     = Some (Searching (mkVector nan nan nan), []).
Proof.
  destruct Lerp_zero_length_not_finite as (H1 & H2 & H3).
  split; [|split; [|split]].
  - apply H1. vm_compute. reflexivity.
  - apply (H2 (mkVector 1 2 3) 1). repeat split; vm_compute; reflexivity.
  - apply (H3 seeded_model Vector0 0.5 []);
      [repeat split; vm_compute; reflexivity
      | vm_compute; reflexivity | vm_compute; reflexivity].
  - apply (H3 (SetStickiness seeded_model 0) Vector0 0.5 []);
      [repeat split; vm_compute; reflexivity
      | vm_compute; reflexivity | vm_compute; reflexivity].
Defined.

(** ** The parent of a walk, the draws of a direction, the written record *)

(** X6.  On a non-empty index, every result of [Walk] names as its
    parent an entry of the index: the result is [PlaceParticle(q, P)] for
    a position q of the walker and an entry (P, id) of the index at a
    computed distance below the attraction distance from q, and id is
    the parent it reports. *)
Theorem Walk_reports_index_entry (m : Model) (t : Tape) (pos : Vector)
  (id : Z) (t' : Tape) :
  m_Index m <> [] ->
  Walk m t = Some ((pos, id), t') ->
  exists q P,
    In (P, id) (m_Index m)
    /\ (Distance q (VectorOfBoost P) <? m_AttractionDistance m) = true
    /\ pos = PlaceParticle m q (VectorOfBoost P).
Proof.
  intros Hne H. apply Walk_joins in H. destruct H as (q & Hd & E).
  injection E as -> ->. exists q, (fst (Nearest m q)).
  split; [|split; [exact Hd | reflexivity]].
  rewrite <- surjective_pairing. apply Nearest_entry. exact Hne.
Qed.

Lemma Walk_reports_index_entry_witness :
  exists q P,
    In (P, 0%Z) (m_Index seeded_model)
    /\ (Distance q (VectorOfBoost P) <? m_AttractionDistance seeded_model)
       = true
    /\ mkVector 0x1.e5b9d136c6d96p-1 0x1.43d136248490fp-2 0
       = PlaceParticle seeded_model q (VectorOfBoost P).
Proof.
  apply (Walk_reports_index_entry seeded_model [0.875; 0.625; 0.5; 0] _ _ []).
  - vm_compute. discriminate.
  - vm_compute. reflexivity.
Defined.

(** X12.  [RandomInUnitSphere] returns a point exactly when the tape
    holds it: the draws are read three at a time, each triple giving the
    point with the coordinates [Random(-1, 1)], the result being the
    first point whose computed squared length is below 1 and every
    triple before it having been rejected.  So the result has a squared
    length below 1, and 3 (k + 1) draws are consumed for some k. *)
Theorem RandomInUnitSphere_first_accepted (t : Tape) (p : Vector) (t' : Tape) :
  (RandomInUnitSphere t = Some (p, t') <-> sphere_draws t p t')
  /\ (RandomInUnitSphere t = Some (p, t') ->
      (LengthSquared p <? 1) = true
      /\ exists k : nat, length t = (3 * (k + 1) + length t')%nat).
Proof.
  split; [split|].
  - apply RandomInUnitSphere_draws_inv.
  - intros H. unfold RandomInUnitSphere.
    apply (sphere_draws_loop t p t' H). apply Nat.le_refl.
  - intros H. apply RandomInUnitSphere_draws_inv in H. split.
    + apply (sphere_draws_inside t p t' H).
    + apply (sphere_draws_length t p t' H).
Qed.

Lemma RandomInUnitSphere_first_accepted_witness :
  sphere_draws [0.9375; 0.9375; 0.9375; 0.75; 0.5; 0.5; 0.25]
               (mkVector 0.5 0 0) [0.25]
  /\ (LengthSquared (mkVector 0.5 0 0) <? 1) = true.
Proof.
  destruct (RandomInUnitSphere_first_accepted
              [0.9375; 0.9375; 0.9375; 0.75; 0.5; 0.5; 0.25]
              (mkVector 0.5 0 0) [0.25])
    as [[H1 _] H2].
  split.
  - apply H1. vm_compute. reflexivity.
  - apply H2. vm_compute. reflexivity.
Defined.

(** X19.  [Add] keeps the [double] coordinates in the index and writes
    their roundings to binary32 in the record, so the two can differ:
    adding (0.70710678118654746, 0, 0) writes an X of
    0.70710676908493042. *)
Theorem Add_record_rounds_to_float (m : Model) (p : Vector) (parent : Z) :
  m_Index (fst (Add m p parent))
  = m_Index m ++ [(ToBoost p, to_int (index_size (m_Index m)))]
  /\ snd (Add m p parent)
     = mkRecord (to_uint32 parent)
                (static_cast_float (m_X p))
                (static_cast_float (m_Y p))
                (static_cast_float (m_Z p))
  /\ static_cast_float 0x1.6a09e667f3bccp-1 = 0x1.6a09e6p-1
  /\ (X (snd (Add seeded_model (mkVector 0x1.6a09e667f3bccp-1 0 0) 0))
      =? 0x1.6a09e667f3bccp-1) = false.
Proof.
  split; [reflexivity|]. split; [reflexivity|].
  split; vm_compute; reflexivity.
Qed.

End B64Facts.
